(** * The Three Runtimes demo: a model of its coordination logic

    The repository is a React Native screen ([AntigravityScreen]) with three
    columns, each driven from another JavaScript runtime:

    - [LazyAppleColumn]: a [setInterval] ticker on the main JS thread;
    - [RocketAppleColumn]: a Reanimated shared value on the UI thread, with
      the derived rotation angle [getAngle];
    - [WorkerColumn]: a worklet runtime that increments a [Synchronizable]
      counter, and a per-frame callback on the UI thread that polls it.

    Conventions of the embedding.  A JavaScript [number] is an IEEE double;
    here it is an exact rational ([Q]), and the two counters, which only
    ever hold 0, 1, 2, ..., are integers ([Z]).  Doubles are exact on the
    integers below 2^53 and on the comparisons the code makes; products and
    quotients such as [SCREEN_HEIGHT * 0.35] are read without rounding
    error, except in [getAngle], whose integer result depends on the rounding
    of its quotient and product: there every operation is rounded to the
    nearest double ([JS.double]).  Time is a number of milliseconds. *)

From Stdlib Require Import ZArith QArith Qround Qabs List Bool String Lia Lqa.
From Stdlib Require Import DecimalString DecimalPos DecimalZ Sorted.
Import ListNotations.

Local Open Scope Z_scope.
Local Open Scope Q_scope.

(** ** JavaScript built-ins *)

Module JS.

Abbreviation number := Q (only parsing).

(** [Math.round(x)]: the nearest integer, a tie going to the larger one. *)
Definition Math_round (x : number) : Z := Qfloor (x + (1 # 2)).

(** [a >= b] and [a <= b] on numbers. *)
Definition ge (a b : number) : bool := Qle_bool b a.
Definition le (a b : number) : bool := Qle_bool a b.
Definition gt (a b : number) : bool := negb (Qle_bool a b).
Definition lt (a b : number) : bool := negb (Qle_bool b a).

(** Where the result of the code depends on it, the arithmetic of numbers is
    that of IEEE 754 doubles: the exact result, rounded to the nearest double,
    a tie going to the double whose last bit is 0.  The doubles are multiples
    of 2^-1074; in these units, the doubles around a number [X] that is not
    negative are [spacing X] apart, 1 under 2^53 and twice as much from each
    power of two to the next, so that 53 bits hold the multiple. *)

(** The nearest integer, a tie going to the even one. *)
Definition roundTiesToEven (x : Q) : Z :=
  let f := Qfloor x in
  match Qcompare (x - inject_Z f) (1 # 2) with
  | Lt => f
  | Gt => (f + 1)%Z
  | Eq => if Z.even f then f else (f + 1)%Z
  end.

Definition units : Z := (2 ^ 1074)%Z.

Definition exponent (X : Q) : Z := Z.max (Z.log2 (Qfloor X) - 52) 0.

Definition spacing (X : Q) : Z := (2 ^ exponent X)%Z.

(** The double nearest to [X], both in units of 2^-1074, for [X] not
    negative. *)
Definition roundUnits (X : Q) : Z :=
  (roundTiesToEven (X / inject_Z (spacing X)) * spacing X)%Z.

(** The double nearest to [x], were the exponent of a double not bounded
    above. *)
Definition round64 (x : Q) : Q :=
  if Qle_bool 0 x then Qred (inject_Z (roundUnits (x * inject_Z units)) / inject_Z units)
  else Qred (- (inject_Z (roundUnits (- x * inject_Z units)) / inject_Z units)).

(** The double an operation returns for the exact result [x]: [None] when
    it is [Infinity] or [-Infinity], which is when the nearest double with
    an exponent not bounded is 2^1024 or further from 0. *)
Definition double (x : Q) : option Q :=
  let r := round64 x in
  if Qle_bool (inject_Z (2 ^ 1024)) (Qabs r) then None else Some r.

(** The rationals that are doubles. *)
Definition isDouble (x : Q) : bool :=
  match double x with
  | Some r => Qeq_bool r x
  | None => false
  end.

(** A computation goes on with the number an operation returns when that
    number is finite; [None] stands for a result that is not. *)
Definition andThen {A B : Type} (o : option A) (k : A -> option B) : option B :=
  match o with
  | Some a => k a
  | None => None
  end.

(** [a - b], [a + b], [a * b] and [a / b] on doubles. *)
Definition sub (a b : Q) : option Q := double (a - b).
Definition add (a b : Q) : option Q := double (a + b).
Definition mul (a b : Q) : option Q := double (a * b).
Definition div (a b : Q) : option Q := if Qeq_bool b 0 then None else double (a / b).

End JS.

(** ** react-native-reanimated, as far as the screen uses it *)

Module Reanimated.

(** Modelled from the spec: [interpolate] of react-native-reanimated is
    not part of the repository.  The spec calls it linear interpolation
    ([lerp]) from an input range to an output range.  The library gives the
    left output for an empty input range; otherwise it computes, in doubles,
    [progress = (x - leftEdgeInput) / (rightEdgeInput - leftEdgeInput)] and
    [val = leftEdgeOutput + progress * (rightEdgeOutput - leftEdgeOutput)],
    and returns [val] also outside the output range (its default
    extrapolation extends the line).  A two-element array literal [[a, b]] is
    a pair; the result is [None] when an operation leaves the finite
    doubles. *)
Definition interpolate (x : Q) (inputRange outputRange : Q * Q) : option Q :=
  let '(leftEdgeInput, rightEdgeInput) := inputRange in
  let '(leftEdgeOutput, rightEdgeOutput) := outputRange in
  JS.andThen (JS.sub rightEdgeInput leftEdgeInput) (fun width =>
  if Qeq_bool width 0 then Some leftEdgeOutput
  else
    JS.andThen (JS.sub x leftEdgeInput) (fun offset =>
    JS.andThen (JS.div offset width) (fun progress =>
    JS.andThen (JS.sub rightEdgeOutput leftEdgeOutput) (fun span =>
    JS.andThen (JS.mul progress span) (fun scaled =>
    JS.add leftEdgeOutput scaled))))).

(** Modelled from the spec: [Easing.quad] and [Easing.inOut(easing)] of
    react-native-reanimated are not part of the repository; they are the
    easing of the spec: the square, and the curve that follows [easing] over
    the first half and its mirror image over the second. *)
Definition Easing_quad (t : Q) : Q := t * t.

Definition Easing_inOut (easing : Q -> Q) (t : Q) : Q :=
  if JS.lt t (1 # 2) then easing (t * 2) / 2
  else 1 - easing ((1 - t) * 2) / 2.

Record TimingConfig : Type := { duration : Q; easing : Q -> Q }.

(** Modelled from the spec: [withTiming(toValue, config, callback)] of
    react-native-reanimated is not part of the repository.  It describes an
    animation that is started by assigning it to a shared value.  The only
    completion callback of the repository, [() => { ballY.value =
    withTiming(0, ...) }], takes no argument and assigns a further animation
    to the same shared value, so a callback is the animation it assigns. *)
#[warnings="-register-all"]
Inductive Animation : Type :=
| withTiming (toValue : Q) (userConfig : TimingConfig) (callback : option Animation).

Definition toValueOf (a : Animation) : Q :=
  let '(withTiming toValue _ _) := a in toValue.

Definition callbackOf (a : Animation) : option Animation :=
  let '(withTiming _ _ callback) := a in callback.

(** An animation that has been started: where and when it started. *)
Record Running : Type :=
  { program : Animation; startTime : Q; startValue : Q }.

(** Modelled from the spec: a shared value of react-native-reanimated is not
    part of the repository.  It holds its value, the animation that drives it
    while that has not finished, and the animations that were replaced while
    they ran: each of these still has its step in the queue of the next
    frame, the oldest first and all of them before the step of the animation
    that drives the value. *)
Record SharedValue : Type :=
  { value : Q; animation : option Running; cancelled : list Running }.

Definition useSharedValue (init : Q) : SharedValue :=
  {| value := init; animation := None; cancelled := [] |}.

(** Modelled from the spec: the start of a timing animation, as the library
    has it: it starts at the current value and the current frame, except over
    a running timing animation to the same value, whose timeline it takes
    over. *)
Definition onStart (a : Animation) (value now : Q) (previous : option Running) : Running :=
  match previous with
  | Some p =>
      if Qeq_bool (toValueOf (program p)) (toValueOf a) && negb (Qeq_bool (startTime p) 0)
      then {| program := a; startTime := startTime p; startValue := startValue p |}
      else {| program := a; startTime := now; startValue := value |}
  | None => {| program := a; startTime := now; startValue := value |}
  end.

(** Modelled from the spec: what the setter of a shared value does with an
    animation [a] in the frame of timestamp [now], once it has cancelled the
    animation [previous] that was driving the value.  The spec has the
    animation move the value to [toValue] over [duration] milliseconds along
    the easing and then run the callback; the library adds that an animation
    to the value already held only runs its callback, and that the new
    animation has its first step at once.  The result is the value and the
    animation left driving it. *)
Fixpoint start (a : Animation) (now : Q) (previous : option Running) (value : Q)
    : Q * option Running :=
  let '(withTiming toValue config callback) := a in
  if Qeq_bool value toValue then
    match callback with
    | Some next => start next now None value
    | None => (value, None)
    end
  else
    let r := onStart a value now previous in
    let runtime := now - startTime r in
    if JS.ge runtime (duration config) then
      match callback with
      | Some next => start next now None toValue
      | None => (toValue, None)
      end
    else
      (startValue r + (toValue - startValue r) * easing config (runtime / duration config),
       Some r).

(** Modelled from the spec: [sv.value = a] for an animation [a], in the frame
    of timestamp [now].  The animation that was driving [sv] is cancelled, not
    dropped: its step stays in the queue of the next frame, where it calls
    its callback (the library passes [finished = false]; the callback of the
    repository does not look at it). *)
Definition set_animation (a : Animation) (now : Q) (sv : SharedValue) : SharedValue :=
  let '(v, live) := start a now (animation sv) (value sv) in
  {| value := v;
     animation := live;
     cancelled := cancelled sv ++ match animation sv with Some p => [p] | None => [] end |}.

(** Modelled from the spec: the step of a cancelled animation [c] in the frame
    of timestamp [now]: it only calls the callback of [c].  [waiting] is the
    animation that drove the value at the end of the last frame, as long as
    it has neither had its step in this frame nor been cancelled in it. *)
Definition cancelledStep (c : Running) (now : Q) (st : option Running * SharedValue)
    : option Running * SharedValue :=
  let '(waiting, sv) := st in
  match callbackOf (program c) with
  | None => st
  | Some next =>
      match waiting with
      | Some w =>
          let '(v, live) := start next now (Some w) (value sv) in
          (None, {| value := v; animation := live; cancelled := cancelled sv |})
      | None => (None, set_animation next now sv)
      end
  end.

(** Modelled from the spec: the steps of the animations of a shared value in
    the frame of timestamp [now]: first those of the cancelled animations,
    then that of the animation that drives the value.  As the spec describes
    a timing animation, the value moves from the start value to [toValue]
    over [duration] milliseconds along the easing; the frame that finds the
    duration elapsed sets the value to [toValue] and runs the completion
    callback on the UI thread.  Timestamps are those of the frame loop, which
    do not go back. *)
Definition onFrame (now : Q) (sv : SharedValue) : SharedValue :=
  let st0 := (animation sv, {| value := value sv; animation := None; cancelled := [] |}) in
  let '(waiting, st) := fold_left (fun st c => cancelledStep c now st) (cancelled sv) st0 in
  match animation sv with
  | None => st
  | Some r =>
      match waiting with
      | None => snd (cancelledStep r now (None, st))
      | Some _ =>
          let '(withTiming toValue config callback) := program r in
          let runtime := now - startTime r in
          if JS.ge runtime (duration config) then
            let finished := {| value := toValue; animation := None; cancelled := cancelled st |} in
            match callback with
            | None => finished
            | Some next => set_animation next now finished
            end
          else
            {| value := startValue r
                        + (toValue - startValue r) * easing config (runtime / duration config);
               animation := Some r;
               cancelled := cancelled st |}
      end
  end.


End Reanimated.

(** ** react-native-worklets, as far as the screen uses it *)

Module Worklets.

(** Modelled from the spec: [createSynchronizable] of react-native-worklets
    is not part of the repository.  The spec has it as a cell holding the
    last committed value; [setBlocking] applies its updater to that value
    in one step, and [getDirty] reads it without blocking. *)
Record Synchronizable : Type := { committed : Z }.

Definition createSynchronizable (init : Z) : Synchronizable :=
  {| committed := init |}.

Definition setBlocking (updater : Z -> Z) (s : Synchronizable) : Synchronizable :=
  {| committed := updater (committed s) |}.

Definition getDirty (s : Synchronizable) : Z := committed s.

(** A timer set with [setInterval(handler, period)]. *)
Record Interval (Handler : Type) : Type :=
  { handler : Handler; period : Z }.
Arguments handler {Handler} _.
Arguments period {Handler} _.

(** A runtime made by [createWorkletRuntime({ name, initializer })]: its
    name and the timers its initializer has set. *)
Record WorkletRuntime (Handler : Type) : Type :=
  { name : string; intervals : list (Interval Handler) }.
Arguments name {Handler} _.
Arguments intervals {Handler} _.

Definition createWorkletRuntime {Handler : Type} (name : string)
    (initializer : list (Interval Handler)) : WorkletRuntime Handler :=
  {| name := name; intervals := initializer |}.

(** [for (let i = 0; i < n; i++) body(i)], for a body that leaves [i] alone. *)
Definition for_upto {S : Type} (n : N) (body : N -> S -> S) (init : S) : S :=
  N.recursion init body n.

End Worklets.

(** ** RocketAppleColumn *)

Module RocketAppleColumn.

(** [getAngle] (RocketAppleColumn.tsx, the worklet at the top of the file):
    [Math.round(interpolate(pos, [0, maxHeight], [0, 360]))], for doubles
    [pos] and [maxHeight]; [None] when the interpolation is not finite. *)
Definition getAngle (pos maxHeight : JS.number) : option Z :=
  option_map JS.Math_round (Reanimated.interpolate pos (0, maxHeight) (0, 360)).

End RocketAppleColumn.

(** ** WorkerColumn *)

Module WorkerColumn.

Import Reanimated Worklets.

(** The one function that runs on the worker runtime: the handler of its
    [setInterval]. *)
Inductive Handler : Type := workerTick.

(** What the column holds between renders: [bgCount], [displayCount],
    [ballY] and [runtimeRef.current]; and, to speak about the work done,
    the number of [Math.sqrt] calls made so far. *)
Record State : Type :=
  { bgCount : Synchronizable;
    displayCount : Z;
    ballY : SharedValue;
    runtimeRef : option (WorkletRuntime Handler);
    sqrtCalls : N }.

(** The initializer of the runtime: [setInterval(workerTick, 1500)]. *)
Definition initializer : list (Interval Handler) :=
  [ {| handler := workerTick; period := 1500 |} ].

(** The render of the component up to the frame callback: the hooks give
    back what they hold, and the runtime is made if the ref is empty. *)
Definition render (s : State) : State :=
  {| bgCount := bgCount s;
     displayCount := displayCount s;
     ballY := ballY s;
     runtimeRef :=
       match runtimeRef s with
       | None => Some (createWorkletRuntime "BlogWorker" initializer)
       | Some r => Some r
       end;
     sqrtCalls := sqrtCalls s |}.

(** The first render: [createSynchronizable(0)], [useSharedValue(0)] twice,
    [useRef(null)]. *)
Definition mount : State :=
  render {| bgCount := createSynchronizable 0;
            displayCount := 0;
            ballY := useSharedValue 0;
            runtimeRef := None;
            sqrtCalls := 0 |}.

(** The handler of the interval: two million [Math.sqrt(i)], whose results
    are dropped, then [bgCount.setBlocking((prev) => prev + 1)]. *)
Definition workerInterval (s : State) : State :=
  let calls := for_upto 2000000 (fun _ calls => N.succ calls) (sqrtCalls s) in
  {| bgCount := setBlocking (fun prev => (prev + 1)%Z) (bgCount s);
     displayCount := displayCount s;
     ballY := ballY s;
     runtimeRef := runtimeRef s;
     sqrtCalls := calls |}.

(** The bounce the frame callback starts:
    [withTiming(bounceHeight, { duration: 500, easing: Easing.inOut(Easing.quad) },
       () => { ballY.value = withTiming(0, { duration: 500, easing: ... }) })]. *)
Definition bounceConfig : TimingConfig :=
  {| duration := 500; easing := Easing_inOut Easing_quad |}.

Definition bounceBack : Animation := withTiming 0 bounceConfig None.

Definition bounce (bounceHeight : Q) : Animation :=
  withTiming bounceHeight bounceConfig (Some bounceBack).

(** What a call of the frame callback writes. *)
Inductive Write : Type :=
| Write_displayCount (v : Z)
| Write_ballY (a : Animation).

(** The callback given to [useFrameCallback] (the same in
    components/antigravity/WorkerColumn.tsx and
    screens/antigravity/WorkerColumn.tsx), in the frame of timestamp [now]:
    the state it leaves and the writes it has made. *)
Definition frameCallback (bounceHeight : Q) (now : Q) (s : State) : State * list Write :=
  let current := getDirty (bgCount s) in
  if negb (displayCount s =? current)%Z then
    ({| bgCount := bgCount s;
        displayCount := current;
        ballY := set_animation (bounce bounceHeight) now (ballY s);
        runtimeRef := runtimeRef s;
        sqrtCalls := sqrtCalls s |},
     [Write_displayCount current; Write_ballY (bounce bounceHeight)])
  else (s, []).

(** One frame of the UI thread.  The steps of the animations of [ballY] were
    put in the queue of the frame before the frame loop put itself there, so
    they run first, and the frame callback after them. *)
Definition animate (now : Q) (s : State) : State :=
  {| bgCount := bgCount s;
     displayCount := displayCount s;
     ballY := onFrame now (ballY s);
     runtimeRef := runtimeRef s;
     sqrtCalls := sqrtCalls s |}.

Definition frame (bounceHeight : Q) (now : Q) (s : State) : State * list Write :=
  frameCallback bounceHeight now (animate now s).

(** The two things that happen to the column after it is mounted: the
    interval of the worker fires, the UI thread renders a frame. *)
Inductive Event : Type :=
| WorkerFire
| Frame (timestamp : Q).

Definition step (bounceHeight : Q) (e : Event) (s : State) : State * list Write :=
  match e with
  | WorkerFire => (workerInterval s, [])
  | Frame now => frame bounceHeight now s
  end.

(** A sequence of events, with all the writes of the frame callback. *)
Fixpoint run (bounceHeight : Q) (events : list Event) (s : State) : State * list Write :=
  match events with
  | [] => (s, [])
  | e :: rest =>
      let '(s1, w1) := step bounceHeight e s in
      let '(s2, w2) := run bounceHeight rest s1 in
      (s2, w1 ++ w2)
  end.

Definition isBounce (w : Write) : bool :=
  match w with Write_ballY _ => true | Write_displayCount _ => false end.

Definition isFire (e : Event) : bool :=
  match e with WorkerFire => true | Frame _ => false end.

Definition bounces (writes : list Write) : nat := List.length (filter isBounce writes).
Definition fires (events : list Event) : nat := List.length (filter isFire events).

Definition displayed (writes : list Write) : list Z :=
  flat_map (fun w => match w with Write_displayCount v => [v] | Write_ballY _ => [] end) writes.

(** How far the mirror is behind the counter.  It pays for the bounces: a
    firing widens it by one, a frame that starts a bounce closes it. *)
Definition gap (s : State) : Z := (getDirty (bgCount s) - displayCount s)%Z.

End WorkerColumn.

(** ** AntigravityScreen *)

Module AntigravityScreen.

Definition BALL_SIZE : Q := 50.

(** [SCREEN_HEIGHT > 0 ? SCREEN_HEIGHT * 0.35 : 250]. *)
Definition BOUNCE_HEIGHT (SCREEN_HEIGHT : Q) : Q :=
  if JS.gt SCREEN_HEIGHT 0 then SCREEN_HEIGHT * (35 # 100) else 250.

(** The state of the screen on the JS thread: [isJammed], [bridgePos] and
    [bridgeDirection.current]. *)
Record State : Type :=
  { isJammed : bool;
    bridgePos : Q;
    bridgeDirection : Q }.

(** [useState(false)], [useState(0)], [useRef(1)]. *)
Definition mount : State :=
  {| isJammed := false; bridgePos := 0; bridgeDirection := 1 |}.

(** The updater given to [setBridgePos], with the ref it reads and writes
    passed in and out: the next position and the direction it leaves. *)
Definition bridgeUpdater (BOUNCE_HEIGHT : Q) (prev : Q) (direction : Q) : Q * Q :=
  let next := prev + 5 * direction in
  if JS.ge next BOUNCE_HEIGHT || JS.le next 0
  then (next, direction * -1)
  else (next, direction).

(** The handler of [setInterval(..., 16)]: [setBridgePos(updater)]. *)
Definition bridgeInterval (BOUNCE_HEIGHT : Q) (s : State) : State :=
  let '(next, direction) := bridgeUpdater BOUNCE_HEIGHT (bridgePos s) (bridgeDirection s) in
  {| isJammed := isJammed s; bridgePos := next; bridgeDirection := direction |}.

(** [n] firings of the interval, the JS thread being free to run each. *)
Definition ticks (BOUNCE_HEIGHT : Q) (n : nat) (s : State) : State :=
  Nat.iter n (bridgeInterval BOUNCE_HEIGHT) s.

Definition setIsJammed (b : bool) (s : State) : State :=
  {| isJammed := b; bridgePos := bridgePos s; bridgeDirection := bridgeDirection s |}.

(** The one function given to [setTimeout]. *)
Inductive Callback : Type := jamBody.

Record Timeout : Type := { callback : Callback; delay : Z }.

(** [jamJSThread]: [setIsJammed(true)], then [setTimeout(jamBody, 50)]; the
    state it leaves and the timers it has set. *)
Definition jamJSThread (s : State) : State * list Timeout :=
  (setIsJammed true s, [ {| callback := jamBody; delay := 50 |} ]).

(** [while (Date.now() - start < 3000) {}], given the values the successive
    calls of [Date.now()] return: the value that ends the loop and the values
    not yet read, or [None] when the loop is still running after the last of
    them. *)
Fixpoint busyWait (start : Z) (clock : list Z) : option (Z * list Z) :=
  match clock with
  | [] => None
  | now :: later =>
      if (now - start <? 3000)%Z then busyWait start later
      else Some (now, later)
  end.

(** The function given to [setTimeout]: [const start = Date.now()], the busy
    loop, [setIsJammed(false)].  With the state it leaves come the time at
    which it returns and the clock values not yet read. *)
Definition jamCallback (clock : list Z) (s : State) : option (State * Z * list Z) :=
  match clock with
  | [] => None
  | start :: later =>
      match busyWait start later with
      | None => None
      | Some (finish, rest) => Some (setIsJammed false s, finish, rest)
      end
  end.

Definition runCallback (c : Callback) (clock : list Z) (s : State) : option (State * Z * list Z) :=
  match c with
  | jamBody => jamCallback clock s
  end.

(** The timer of [setTimeout(callback, delay)], set at the time [setAt]: the
    JS thread runs the callback when it is free, [delay] milliseconds after
    [setAt] or later.  The first value of [clock] is the time at which the
    callback begins. *)
Definition runTimeout (setAt : Z) (t : Timeout) (clock : list Z) (s : State)
    : option (State * Z * list Z) :=
  match clock with
  | [] => None
  | start :: _ =>
      if (start <? setAt + delay t)%Z then None
      else runCallback (callback t) clock s
  end.

End AntigravityScreen.

(** ** The clock the busy loop reads *)

Module Clock.

(** The values [Date.now()] returns to a loop that reads it more than once a
    millisecond, after the value [prev]: none is before the one read last,
    and none is more than a millisecond after it. *)
Fixpoint ticking (prev : Z) (clock : list Z) : bool :=
  match clock with
  | [] => true
  | now :: later => (prev <=? now)%Z && (now <=? prev + 1)%Z && ticking now later
  end.

(** Some value of the clock is at or after [deadline]. *)
Definition reaches (deadline : Z) (clock : list Z) : bool :=
  existsb (fun now => (deadline <=? now)%Z) clock.

End Clock.

(** ** The interval of the worker while the JS thread is busy *)

Module WorkerTimer.

(** The period the initializer of the worker runtime gives [setInterval]. *)
Definition workerPeriod : Z :=
  match WorkerColumn.initializer with
  | i :: _ => Worklets.period i
  | [] => 0
  end.

(** Modelled from the spec: [setInterval] of the worker runtime is not part
    of the repository.  The spec gives the worker an execution context of its
    own, with its own timer loop, that the JS thread does not hold up: an
    interval made at the time [madeAt] fires at [madeAt + period],
    [madeAt + 2 * period] and so on.  [firedBy madeAt now] is the number of
    its firings up to the time [now], and [firedBetween madeAt from to] the
    number of those after [from] and up to [to]. *)
Definition firedBy (madeAt now : Z) : Z :=
  Z.max 0 ((now - madeAt) / workerPeriod).


End WorkerTimer.

(** ** The spec's own formulas, to compare the code with *)

Module Spec.

(** [lerp(pos, [a, b] -> [c, d])]: the line through [(a, c)] and [(b, d)]. *)
Definition lerp (pos : Q) (a b c d : Q) : Q := c + (d - c) * ((pos - a) / (b - a)).

(** [angle = round(lerp(pos, [0, bound] -> [0, 360]))], rounding to the
    nearest integer. *)
Definition angle (pos bound : Q) : Z := Qfloor (lerp pos 0 bound 0 360 + (1 # 2)).

(** The reflecting bounce of the spec: add [step * dir] to the position, and
    reflect the direction at either bound. *)
Definition reflecting_bounce (step bound : Q) (pd : Q * Q) : Q * Q :=
  let '(pos, dir) := pd in
  let next := pos + step * dir in
  if Qlt_le_dec next bound
  then if Qlt_le_dec 0 next then (next, dir) else (next, - dir)
  else (next, - dir).

End Spec.

(** ** More of WorkerColumn: the label and the style *)

Module WorkerColumnView.

Import Reanimated Worklets WorkerColumn.

(** [`${n}`] for a number [n] that holds an integer: its decimal digits,
    after a minus sign when it is negative. *)
Definition template (n : Z) : string := NilZero.string_of_int (Z.to_int n).

(** The props [useAnimatedProps] gives the text input. *)
Record AnimatedProps : Type := { text : string; defaultValue : string }.

(** [counterProps]: [{ text: `${displayCount.value} runs`, defaultValue: "0 runs" }]. *)
Definition counterProps (s : State) : AnimatedProps :=
  {| text := template (displayCount s) ++ " runs"; defaultValue := "0 runs" |}.

(** [ballStyle]: the [translateY] of [{ transform: [{ translateY: ballY.value }] }]. *)
Definition ballStyle (s : State) : Q := value (ballY s).

(** The timestamps of the frames of a sequence of events, in their order. *)
Definition timestamps (events : list Event) : list Q :=
  flat_map (fun e => match e with WorkerFire => [] | Frame now => [now] end) events.

(** The two animations the column ever gives [ballY]. *)
Definition leg (bounceHeight : Q) (a : Animation) : Prop :=
  a = bounce bounceHeight \/ a = bounceBack.

Definition onTrack (bounceHeight : Q) (v : Q) : Prop :=
  0 <= v /\ v <= bounceHeight.

(** What a running animation of [ballY] keeps, for a bound [bounceHeight]
    and the timestamps [later] of the frame under way and of those to come:
    it is one of the two legs of the bounce, started between 0 and the bound,
    no later than these frames. *)
Definition steadyRunning (bounceHeight : Q) (later : list Q) (r : Running) : Prop :=
  leg bounceHeight (program r) /\
  onTrack bounceHeight (startValue r) /\
  Forall (fun t => startTime r <= t) later.

Definition steadyOption (bounceHeight : Q) (later : list Q) (o : option Running) : Prop :=
  match o with
  | None => True
  | Some r => steadyRunning bounceHeight later r
  end.

(** What [ballY] keeps: its value is between 0 and the bound, the animation
    it runs, if any, is as above, and the animations it has dropped are legs
    of the bounce. *)
Definition steady (bounceHeight : Q) (later : list Q) (sv : SharedValue) : Prop :=
  onTrack bounceHeight (value sv) /\
  steadyOption bounceHeight later (animation sv) /\
  Forall (fun c => leg bounceHeight (program c)) (cancelled sv).

End WorkerColumnView.

(** ** More of AntigravityScreen: the effect that starts the rocket *)

Module AntigravityScreenEffects.

Import Reanimated.

(** [withRepeat(animation, numberOfReps, reverse)] of react-native-reanimated,
    as the value the screen builds; the screen only assigns it. *)
Inductive RepeatAnimation : Type :=
| withRepeat (animation : Animation) (numberOfReps : Z) (reverse : bool).

(** The second [useEffect]: what it assigns to [rocketPos.value], if anything:
    [if (BOUNCE_HEIGHT > 0) rocketPos.value = withRepeat(withTiming(BOUNCE_HEIGHT,
       { duration: 1000, easing: Easing.inOut(Easing.quad) }), -1, true)]. *)
Definition rocketEffect (BOUNCE_HEIGHT : Q) : option RepeatAnimation :=
  if JS.gt BOUNCE_HEIGHT 0 then
    Some (withRepeat
            (withTiming BOUNCE_HEIGHT
               {| duration := 1000; easing := Easing_inOut Easing_quad |} None)
            (-1) true)
  else None.

(** What the ticker keeps when it starts from the mount with a positive
    bound [B]: going up the ball is under the bound, going down it is above 0
    and less than a step past the bound, and it sits on a multiple of 5. *)
Definition inRange (B : Q) (s : AntigravityScreen.State) : Prop :=
  (AntigravityScreen.bridgeDirection s = 1
   /\ 0 <= AntigravityScreen.bridgePos s /\ AntigravityScreen.bridgePos s < B
   \/ AntigravityScreen.bridgeDirection s = -1
      /\ 0 < AntigravityScreen.bridgePos s /\ AntigravityScreen.bridgePos s < B + 5)
  /\ exists j : Z, AntigravityScreen.bridgePos s == inject_Z (5 * j).

End AntigravityScreenEffects.

(** * Properties *)

(** ** Rounding *)

Section Rounding.

Lemma Math_round_le (x y : Q) : x <= y -> (JS.Math_round x <= JS.Math_round y)%Z.
Proof.
  intros Hxy. unfold JS.Math_round.
  apply Qfloor_resp_le. lra.
Qed.

Lemma Math_round_eq (x y : Q) : x == y -> JS.Math_round x = JS.Math_round y.
Proof.
  intros Hxy. apply Z.le_antisymm; apply Math_round_le; lra.
Qed.

Lemma Math_round_Z (n : Z) : JS.Math_round (inject_Z n) = n.
Proof.
  unfold JS.Math_round.
  assert (Hlo : (n <= Qfloor (inject_Z n + (1 # 2)))%Z).
  { rewrite <- (Qfloor_Z n) at 1. apply Qfloor_resp_le. lra. }
  assert (Hhi : (Qfloor (inject_Z n + (1 # 2)) < n + 1)%Z).
  { rewrite Zlt_Qlt, inject_Z_plus.
    pose proof (Qfloor_le (inject_Z n + (1 # 2))).
    change (inject_Z 1) with 1. lra. }
  lia.
Qed.

Lemma Math_round_nearest (x : Q) :
  x - (1 # 2) < inject_Z (JS.Math_round x) /\ inject_Z (JS.Math_round x) <= x + (1 # 2).
Proof.
  unfold JS.Math_round. split.
  - pose proof (Qlt_floor (x + (1 # 2))) as H.
    rewrite inject_Z_plus in H. change (inject_Z 1) with 1 in H. lra.
  - apply Qfloor_le.
Qed.

End Rounding.

(** ** Rounding to the nearest double *)

Section Nearest.

Lemma roundTiesToEven_spec (x : Q) :
  (x - inject_Z (Qfloor x) < 1 # 2 /\ JS.roundTiesToEven x = Qfloor x) \/
  (1 # 2 < x - inject_Z (Qfloor x) /\ JS.roundTiesToEven x = (Qfloor x + 1)%Z) \/
  (x - inject_Z (Qfloor x) == 1 # 2 /\
   JS.roundTiesToEven x = if Z.even (Qfloor x) then Qfloor x else (Qfloor x + 1)%Z).
Proof.
  unfold JS.roundTiesToEven.
  destruct (Qcompare (x - inject_Z (Qfloor x)) (1 # 2)) eqn:E.
  - right. right. split; [now apply Qeq_alt | reflexivity].
  - left. split; [now apply Qlt_alt | reflexivity].
  - right. left. split; [now apply Qgt_alt | reflexivity].
Qed.

Lemma floor_bounds (x : Q) : inject_Z (Qfloor x) <= x /\ x < inject_Z (Qfloor x) + 1.
Proof.
  split; [apply Qfloor_le|].
  pose proof (Qlt_floor x) as H. rewrite inject_Z_plus in H. exact H.
Qed.

Lemma roundTiesToEven_near (x : Q) :
  x - (1 # 2) <= inject_Z (JS.roundTiesToEven x) /\ inject_Z (JS.roundTiesToEven x) <= x + (1 # 2).
Proof.
  destruct (floor_bounds x) as [Hlo Hhi].
  destruct (roundTiesToEven_spec x) as [[H ->] | [[H ->] | [H ->]]].
  - split; lra.
  - rewrite inject_Z_plus. change (inject_Z 1) with 1. split; lra.
  - destruct (Z.even (Qfloor x)).
    + split; lra.
    + rewrite inject_Z_plus. change (inject_Z 1) with 1. split; lra.
Qed.

Lemma roundTiesToEven_le (x y : Q) :
  x <= y -> (JS.roundTiesToEven x <= JS.roundTiesToEven y)%Z.
Proof.
  intros Hxy.
  pose proof (Qfloor_resp_le x y Hxy) as Hfloor.
  destruct (floor_bounds x) as [Hx0 Hx1]. destruct (floor_bounds y) as [Hy0 Hy1].
  destruct (Z.eq_dec (Qfloor x) (Qfloor y)) as [E | E].
  - destruct (roundTiesToEven_spec x) as [[Hx ->] | [[Hx ->] | [Hx ->]]];
      destruct (roundTiesToEven_spec y) as [[Hy ->] | [[Hy ->] | [Hy ->]]];
      rewrite <- ?E in *; try destruct (Z.even (Qfloor x)); try lia; exfalso; lra.
  - assert (Hstep : (Qfloor x + 1 <= Qfloor y)%Z) by lia.
    destruct (roundTiesToEven_spec x) as [[_ ->] | [[_ ->] | [_ ->]]];
      destruct (roundTiesToEven_spec y) as [[_ ->] | [[_ ->] | [_ ->]]];
      try destruct (Z.even (Qfloor x)); try destruct (Z.even (Qfloor y)); lia.
Qed.

Lemma roundTiesToEven_comp (x y : Q) : x == y -> JS.roundTiesToEven x = JS.roundTiesToEven y.
Proof.
  intros E. apply Z.le_antisymm; apply roundTiesToEven_le; rewrite E; apply Qle_refl.
Qed.

Lemma roundTiesToEven_Z (n : Z) : JS.roundTiesToEven (inject_Z n) = n.
Proof.
  destruct (roundTiesToEven_spec (inject_Z n)) as [[_ ->] | [[H _] | [H _]]];
    rewrite ?Qfloor_Z in *; [reflexivity | exfalso; lra | exfalso; lra].
Qed.

End Nearest.

Section Units.

Lemma exponent_nonneg (X : Q) : (0 <= JS.exponent X)%Z.
Proof. unfold JS.exponent. lia. Qed.

Lemma spacing_pos (X : Q) : (0 < JS.spacing X)%Z.
Proof. unfold JS.spacing. apply Z.pow_pos_nonneg; [lia | apply exponent_nonneg]. Qed.

Lemma exponent_le (X Y : Q) : X <= Y -> (JS.exponent X <= JS.exponent Y)%Z.
Proof.
  intros H. unfold JS.exponent.
  pose proof (Z.log2_le_mono _ _ (Qfloor_resp_le X Y H)). lia.
Qed.

Lemma floor_nonneg (X : Q) : 0 <= X -> (0 <= Qfloor X)%Z.
Proof. intros H. exact (Qfloor_resp_le 0 X H). Qed.

(** A number is below the end of the binade its exponent names. *)
Lemma below_next (X : Q) : 0 <= X -> X <= inject_Z (2 ^ (JS.exponent X + 53)).
Proof.
  intros H0. pose proof (floor_nonneg X H0) as Hs.
  destruct (floor_bounds X) as [_ Hhi].
  assert (Hpow : (Qfloor X + 1 <= 2 ^ (JS.exponent X + 53))%Z).
  { apply Z.le_trans with (2 ^ (Z.log2 (Qfloor X) + 1))%Z.
    - destruct (Z.eq_dec (Qfloor X) 0) as [-> | Hne].
      + cbn. lia.
      + pose proof (Z.log2_spec (Qfloor X) ltac:(lia)) as [_ Hlt].
        unfold Z.succ in Hlt. lia.
    - apply Z.pow_le_mono_r; [lia|]. unfold JS.exponent. lia. }
  rewrite Zle_Qle, inject_Z_plus in Hpow. change (inject_Z 1) with 1 in Hpow. lra.
Qed.

(** Above the least exponent, a number is at or after the start of its binade. *)
Lemma above_binade (Y : Q) :
  (0 < JS.exponent Y)%Z -> inject_Z (2 ^ (JS.exponent Y + 52)) <= Y.
Proof.
  intros He. unfold JS.exponent in *.
  assert (Hlog : (52 < Z.log2 (Qfloor Y))%Z) by lia.
  assert (Hs : (0 < Qfloor Y)%Z).
  { destruct (Z.lt_trichotomy (Qfloor Y) 0) as [Hneg | [Hz | Hpos]]; [| |exact Hpos].
    - rewrite Z.log2_nonpos in Hlog by lia. lia.
    - rewrite Hz in Hlog. cbn in Hlog. lia. }
  pose proof (Z.log2_spec (Qfloor Y) Hs) as [Hle _].
  replace (Z.max (Z.log2 (Qfloor Y) - 52) 0 + 52)%Z with (Z.log2 (Qfloor Y)) by lia.
  apply Qle_trans with (inject_Z (Qfloor Y)); [now rewrite <- Zle_Qle | apply Qfloor_le].
Qed.

Lemma inject_Z_pos (q : Z) : (0 < q)%Z -> 0 < inject_Z q.
Proof. intros H. now rewrite Zlt_Qlt in H. Qed.

Lemma scaled_le (X : Q) (m q : Z) :
  (0 < q)%Z -> X <= inject_Z (m * q) -> (JS.roundTiesToEven (X / inject_Z q) <= m)%Z.
Proof.
  intros Hq H. rewrite <- (roundTiesToEven_Z m). apply roundTiesToEven_le.
  apply Qle_shift_div_r; [now apply inject_Z_pos|].
  now rewrite <- inject_Z_mult.
Qed.

Lemma scaled_ge (X : Q) (m q : Z) :
  (0 < q)%Z -> inject_Z (m * q) <= X -> (m <= JS.roundTiesToEven (X / inject_Z q))%Z.
Proof.
  intros Hq H. rewrite <- (roundTiesToEven_Z m) at 1. apply roundTiesToEven_le.
  apply Qle_shift_div_l; [now apply inject_Z_pos|].
  now rewrite <- inject_Z_mult.
Qed.

Lemma scaled_eq (X : Q) (m q : Z) :
  (0 < q)%Z -> X == inject_Z (m * q) -> JS.roundTiesToEven (X / inject_Z q) = m.
Proof.
  intros Hq H. apply Z.le_antisymm; [apply scaled_le | apply scaled_ge];
    try assumption; rewrite H; apply Qle_refl.
Qed.

Lemma roundUnits_le (X Y : Q) : 0 <= X -> X <= Y -> (JS.roundUnits X <= JS.roundUnits Y)%Z.
Proof.
  intros H0 Hxy. unfold JS.roundUnits, JS.spacing.
  pose proof (exponent_nonneg X) as Hex. pose proof (exponent_nonneg Y) as Hey.
  pose proof (exponent_le X Y Hxy) as Hle.
  assert (Hqx : (0 < 2 ^ JS.exponent X)%Z) by (apply Z.pow_pos_nonneg; lia).
  assert (Hqy : (0 < 2 ^ JS.exponent Y)%Z) by (apply Z.pow_pos_nonneg; lia).
  destruct (Z.eq_dec (JS.exponent X) (JS.exponent Y)) as [E | E].
  - rewrite E. apply Z.mul_le_mono_nonneg_r; [lia|].
    apply roundTiesToEven_le. unfold Qdiv. apply Qmult_le_compat_r; [exact Hxy|].
    apply Qlt_le_weak, Qinv_lt_0_compat. now apply inject_Z_pos.
  - assert (Hlt : (JS.exponent X < JS.exponent Y)%Z) by lia.
    apply Z.le_trans with (2 ^ (JS.exponent Y + 52))%Z.
    + replace (2 ^ (JS.exponent Y + 52))%Z
        with (2 ^ (JS.exponent Y + 52 - JS.exponent X) * 2 ^ JS.exponent X)%Z
        by (rewrite <- Z.pow_add_r by lia; f_equal; lia).
      apply Z.mul_le_mono_nonneg_r; [lia|].
      apply scaled_le; [exact Hqx|].
      rewrite <- Z.pow_add_r by lia.
      apply Qle_trans with (inject_Z (2 ^ (JS.exponent X + 53))); [now apply below_next|].
      rewrite <- Zle_Qle. apply Z.pow_le_mono_r; lia.
    + replace (2 ^ (JS.exponent Y + 52))%Z with (2 ^ 52 * 2 ^ JS.exponent Y)%Z
        by (rewrite <- Z.pow_add_r by lia; f_equal; lia).
      apply Z.mul_le_mono_nonneg_r; [lia|].
      apply scaled_ge; [exact Hqy|].
      rewrite <- Z.pow_add_r by lia.
      replace (52 + JS.exponent Y)%Z with (JS.exponent Y + 52)%Z by lia.
      apply above_binade. lia.
Qed.

Lemma exponent_comp (X Y : Q) : X == Y -> JS.exponent X = JS.exponent Y.
Proof. intros E. unfold JS.exponent. now rewrite (Qfloor_comp X Y E). Qed.

Lemma roundUnits_comp (X Y : Q) : X == Y -> JS.roundUnits X = JS.roundUnits Y.
Proof.
  intros E. unfold JS.roundUnits, JS.spacing. rewrite (exponent_comp X Y E). f_equal.
  apply roundTiesToEven_comp. now rewrite E.
Qed.

Lemma roundUnits_near (X : Q) :
  X - inject_Z (JS.spacing X) / 2 <= inject_Z (JS.roundUnits X) /\
  inject_Z (JS.roundUnits X) <= X + inject_Z (JS.spacing X) / 2.
Proof.
  unfold JS.roundUnits. pose proof (spacing_pos X) as Hq. apply inject_Z_pos in Hq.
  set (q := inject_Z (JS.spacing X)) in *.
  destruct (roundTiesToEven_near (X / q)) as [Hlo Hhi].
  rewrite inject_Z_mult. fold q.
  set (m := inject_Z (JS.roundTiesToEven (X / q))) in *.
  assert (EX : X == X / q * q) by (field; lra).
  assert (Eh : q / 2 == (1 # 2) * q) by field.
  rewrite Eh. split.
  - assert (H : (X / q - (1 # 2)) * q <= m * q) by (apply Qmult_le_compat_r; lra).
    rewrite EX at 1. lra.
  - assert (H : m * q <= (X / q + (1 # 2)) * q) by (apply Qmult_le_compat_r; lra).
    rewrite EX at 1. lra.
Qed.

Lemma roundUnits_0 : JS.roundUnits 0 = 0%Z.
Proof. reflexivity. Qed.

Lemma roundUnits_nonneg (X : Q) : 0 <= X -> (0 <= JS.roundUnits X)%Z.
Proof.
  intros H. rewrite <- roundUnits_0. apply roundUnits_le; [apply Qle_refl | exact H].
Qed.

(** Rounding gives multiples of the spacing at the value it gives. *)
Lemma roundUnits_grid (X : Q) :
  0 <= X -> exists m, JS.roundUnits X = (m * JS.spacing (inject_Z (JS.roundUnits X)))%Z.
Proof.
  intros H0.
  pose proof (roundUnits_nonneg X H0) as Hr.
  pose proof (exponent_nonneg X) as He.
  assert (Hq : (0 < 2 ^ JS.exponent X)%Z) by (apply Z.pow_pos_nonneg; lia).
  assert (Htop : (JS.roundUnits X <= 2 ^ (JS.exponent X + 53))%Z).
  { unfold JS.roundUnits, JS.spacing.
    replace (2 ^ (JS.exponent X + 53))%Z with (2 ^ 53 * 2 ^ JS.exponent X)%Z
      by (rewrite <- Z.pow_add_r by lia; f_equal; lia).
    apply Z.mul_le_mono_nonneg_r; [lia|].
    apply scaled_le; [exact Hq|].
    rewrite <- Z.pow_add_r by lia.
    replace (53 + JS.exponent X)%Z with (JS.exponent X + 53)%Z by lia.
    now apply below_next. }
  unfold JS.spacing at 1. unfold JS.exponent at 1. rewrite Qfloor_Z.
  set (r := JS.roundUnits X) in *.
  destruct (Z.eq_dec r (2 ^ (JS.exponent X + 53))) as [E | E].
  - exists (2 ^ 52)%Z. rewrite E, Z.log2_pow2 by lia.
    rewrite <- Z.pow_add_r by lia. f_equal. lia.
  - assert (Hlog : (Z.log2 r - 52 <= JS.exponent X)%Z).
    { destruct (Z.eq_dec r 0) as [-> | Hne]; [cbn; lia|].
      assert (Hlt : (Z.log2 r < JS.exponent X + 53)%Z)
        by (apply Z.log2_lt_pow2; lia).
      lia. }
    set (e' := Z.max (Z.log2 r - 52) 0).
    exists (JS.roundTiesToEven (X / inject_Z (JS.spacing X)) * 2 ^ (JS.exponent X - e'))%Z.
    rewrite <- Z.mul_assoc, <- Z.pow_add_r by lia.
    replace (JS.exponent X - e' + e')%Z with (JS.exponent X) by lia.
    reflexivity.
Qed.

Lemma roundUnits_fixed (X : Q) :
  0 <= X -> JS.roundUnits (inject_Z (JS.roundUnits X)) = JS.roundUnits X.
Proof.
  intros H0. destruct (roundUnits_grid X H0) as [m Hm].
  set (r := JS.roundUnits X) in *.
  unfold JS.roundUnits at 1.
  rewrite (scaled_eq (inject_Z r) m (JS.spacing (inject_Z r))).
  - now rewrite <- Hm.
  - apply spacing_pos.
  - now rewrite <- Hm.
Qed.

End Units.

Section Doubles.

Lemma div_le (a b c : Q) : 0 < c -> a <= b -> a / c <= b / c.
Proof.
  intros Hc H. unfold Qdiv. apply Qmult_le_compat_r; [exact H|].
  apply Qlt_le_weak, Qinv_lt_0_compat, Hc.
Qed.

Lemma units_pos : 0 < inject_Z JS.units.
Proof. reflexivity. Qed.

Lemma Qle_bool_comp (a x y : Q) : x == y -> Qle_bool a x = Qle_bool a y.
Proof.
  intros E. destruct (Qle_bool a x) eqn:Hx, (Qle_bool a y) eqn:Hy; try reflexivity.
  - apply Qle_bool_iff in Hx. rewrite E in Hx. apply Qle_bool_iff in Hx. congruence.
  - apply Qle_bool_iff in Hy. rewrite <- E in Hy. apply Qle_bool_iff in Hy. congruence.
Qed.

Lemma round64_comp (x y : Q) : x == y -> JS.round64 x = JS.round64 y.
Proof.
  intros E. unfold JS.round64. rewrite (Qle_bool_comp 0 x y E).
  destruct (Qle_bool 0 y); apply Qred_complete.
  - rewrite (roundUnits_comp (x * inject_Z JS.units) (y * inject_Z JS.units)); [reflexivity|].
    now rewrite E.
  - rewrite (roundUnits_comp (- x * inject_Z JS.units) (- y * inject_Z JS.units)); [reflexivity|].
    now rewrite E.
Qed.

Lemma round64_nonneg_eq (x : Q) :
  0 <= x -> JS.round64 x == inject_Z (JS.roundUnits (x * inject_Z JS.units)) / inject_Z JS.units.
Proof.
  intros H. unfold JS.round64. apply Qle_bool_iff in H. rewrite H. apply Qred_correct.
Qed.

Lemma round64_neg_eq (x : Q) :
  x < 0 -> JS.round64 x == - (inject_Z (JS.roundUnits (- x * inject_Z JS.units)) / inject_Z JS.units).
Proof.
  intros H. unfold JS.round64.
  destruct (Qle_bool 0 x) eqn:E.
  - apply Qle_bool_iff in E. lra.
  - apply Qred_correct.
Qed.

Lemma in_units_nonneg (x : Q) : 0 <= x -> 0 <= x * inject_Z JS.units.
Proof.
  intros H. apply Qmult_le_0_compat; [exact H | apply Qlt_le_weak, units_pos].
Qed.

Lemma out_of_units_le (r s : Z) :
  (r <= s)%Z -> inject_Z r / inject_Z JS.units <= inject_Z s / inject_Z JS.units.
Proof.
  intros H. unfold Qdiv. apply Qmult_le_compat_r.
  - now rewrite <- Zle_Qle.
  - apply Qlt_le_weak, Qinv_lt_0_compat, units_pos.
Qed.

(** Rounding keeps the order of the numbers that are not negative. *)
Lemma round64_le (x y : Q) : 0 <= x -> x <= y -> JS.round64 x <= JS.round64 y.
Proof.
  intros H0 Hxy.
  rewrite (round64_nonneg_eq x H0), (round64_nonneg_eq y) by lra.
  apply out_of_units_le, roundUnits_le; [now apply in_units_nonneg|].
  apply Qmult_le_compat_r; [exact Hxy | apply Qlt_le_weak, units_pos].
Qed.

Lemma round64_0 : JS.round64 0 = 0.
Proof. reflexivity. Qed.

Lemma round64_1 : JS.round64 1 = 1.
Proof. vm_compute. reflexivity. Qed.

Lemma round64_360 : JS.round64 360 = 360.
Proof. vm_compute. reflexivity. Qed.

Lemma round64_nonneg (x : Q) : 0 <= x -> 0 <= JS.round64 x.
Proof.
  intros H. rewrite <- round64_0. apply round64_le; [apply Qle_refl | exact H].
Qed.

Lemma round64_nonpos (x : Q) : x < 0 -> JS.round64 x <= 0.
Proof.
  intros H. rewrite (round64_neg_eq x H).
  assert (H0 : 0 <= - x * inject_Z JS.units) by (apply in_units_nonneg; lra).
  pose proof (out_of_units_le 0 _ (roundUnits_nonneg _ H0)) as Hr.
  assert (E : inject_Z 0 / inject_Z JS.units == 0) by reflexivity.
  lra.
Qed.

(** Rounding a second time changes nothing. *)
Lemma round64_fixed (x : Q) : JS.round64 (JS.round64 x) = JS.round64 x.
Proof.
  pose proof units_pos as HU.
  destruct (Qlt_le_dec x 0) as [Hneg | Hpos].
  - assert (H0 : 0 <= - x * inject_Z JS.units) by (apply in_units_nonneg; lra).
    pose proof (roundUnits_nonneg _ H0) as Hr.
    pose proof (round64_neg_eq x Hneg) as Ex.
    destruct (Z.eq_dec (JS.roundUnits (- x * inject_Z JS.units)) 0) as [Ez | Enz].
    + rewrite Ez in Ex.
      assert (E0 : JS.round64 x == 0) by (rewrite Ex; reflexivity).
      rewrite (round64_comp _ 0 E0), round64_0.
      unfold JS.round64. destruct (Qle_bool 0 x) eqn:E.
      * apply Qle_bool_iff in E. lra.
      * rewrite Ez. reflexivity.
    + assert (Hlt : JS.round64 x < 0).
      { rewrite Ex.
        assert (0 < inject_Z (JS.roundUnits (- x * inject_Z JS.units)) / inject_Z JS.units).
        { apply Qlt_shift_div_l; [exact HU|]. rewrite Qmult_0_l.
          apply inject_Z_pos. lia. }
        lra. }
      unfold JS.round64 at 1.
      destruct (Qle_bool 0 (JS.round64 x)) eqn:E.
      * apply Qle_bool_iff in E. lra.
      * rewrite (roundUnits_comp (- JS.round64 x * inject_Z JS.units)
                   (inject_Z (JS.roundUnits (- x * inject_Z JS.units)))).
        -- rewrite (roundUnits_fixed _ H0). unfold JS.round64.
           destruct (Qle_bool 0 x) eqn:E'; [|reflexivity].
           apply Qle_bool_iff in E'. lra.
        -- rewrite Ex. field. lra.
  - assert (H0 : 0 <= x * inject_Z JS.units) by now apply in_units_nonneg.
    pose proof (round64_nonneg_eq x Hpos) as Ex.
    pose proof (round64_nonneg x Hpos) as Hr.
    unfold JS.round64 at 1. apply Qle_bool_iff in Hr. rewrite Hr.
    rewrite (roundUnits_comp (JS.round64 x * inject_Z JS.units)
               (inject_Z (JS.roundUnits (x * inject_Z JS.units)))).
    + rewrite (roundUnits_fixed _ H0). unfold JS.round64.
      apply Qle_bool_iff in Hpos. now rewrite Hpos.
    + rewrite Ex. field. lra.
Qed.

(** Rounding moves a number by half the spacing of the doubles around it, at
    most. *)
Lemma round64_near (x c : Q) :
  0 <= x -> x <= c ->
  x - inject_Z (JS.spacing (c * inject_Z JS.units)) / (2 * inject_Z JS.units) <= JS.round64 x /\
  JS.round64 x <= x + inject_Z (JS.spacing (c * inject_Z JS.units)) / (2 * inject_Z JS.units).
Proof.
  intros H0 Hc. pose proof units_pos as HU.
  rewrite (round64_nonneg_eq x H0).
  destruct (roundUnits_near (x * inject_Z JS.units)) as [Hlo Hhi].
  assert (Hsp : inject_Z (JS.spacing (x * inject_Z JS.units))
                <= inject_Z (JS.spacing (c * inject_Z JS.units))).
  { rewrite <- Zle_Qle. unfold JS.spacing. apply Z.pow_le_mono_r; [lia|].
    apply exponent_le. apply Qmult_le_compat_r; [exact Hc | lra]. }
  set (U := inject_Z JS.units) in *.
  set (qx := inject_Z (JS.spacing (x * U))) in *.
  set (qc := inject_Z (JS.spacing (c * U))) in *.
  set (r := inject_Z (JS.roundUnits (x * U))) in *.
  assert (Eqx : qx / 2 == qx * (1 # 2)) by field.
  assert (Eqc : qc / (2 * U) == qc * (1 # 2) / U) by (field; lra).
  rewrite Eqx in Hlo, Hhi. rewrite Eqc. split.
  - apply Qle_trans with ((x * U - qc * (1 # 2)) / U).
    + assert (E : (x * U - qc * (1 # 2)) / U == x - qc * (1 # 2) / U) by (field; lra).
      rewrite E. apply Qle_refl.
    + apply div_le; [exact HU | lra].
  - apply Qle_trans with ((x * U + qc * (1 # 2)) / U).
    + apply div_le; [exact HU | lra].
    + assert (E : (x * U + qc * (1 # 2)) / U == x + qc * (1 # 2) / U) by (field; lra).
      rewrite E. apply Qle_refl.
Qed.

Lemma double_comp (x y : Q) : x == y -> JS.double x = JS.double y.
Proof. intros E. unfold JS.double. now rewrite (round64_comp x y E). Qed.

Lemma double_Some (x r : Q) : JS.double x = Some r -> r = JS.round64 x.
Proof.
  unfold JS.double. destruct (Qle_bool _ _); [discriminate|]. now intros [= <-].
Qed.

(** A double is left as it is. *)
Lemma double_fixed (x r : Q) : JS.double x = Some r -> JS.double r = Some r.
Proof.
  intros H. pose proof (double_Some x r H) as ->.
  unfold JS.double in *. rewrite round64_fixed.
  destruct (Qle_bool _ _); [discriminate | reflexivity].
Qed.

Lemma double_small (x : Q) :
  0 <= JS.round64 x -> JS.round64 x <= 360 -> JS.double x = Some (JS.round64 x).
Proof.
  intros H0 H1. unfold JS.double.
  destruct (Qle_bool (inject_Z (2 ^ 1024)) (Qabs (JS.round64 x))) eqn:E; [|reflexivity].
  apply Qle_bool_iff in E. rewrite (Qabs_pos _ H0) in E.
  assert (Hbig : 360 < inject_Z (2 ^ 1024)) by reflexivity.
  set (big := inject_Z (2 ^ 1024)) in *. clearbody big. lra.
Qed.

Lemma isDouble_double (x : Q) :
  JS.isDouble x = true -> exists r, JS.double x = Some r /\ r == x.
Proof.
  unfold JS.isDouble. destruct (JS.double x) as [r|]; [|discriminate].
  intros H. exists r. split; [reflexivity | now apply Qeq_bool_iff].
Qed.

Lemma sub_0 (x : Q) : JS.isDouble x = true -> exists r, JS.sub x 0 = Some r /\ r == x.
Proof.
  intros H. destruct (isDouble_double x H) as (r & Hr & E).
  exists r. split; [|exact E]. unfold JS.sub.
  rewrite (double_comp (x - 0) x); [exact Hr | ring].
Qed.

Lemma add_0 (x v : Q) : JS.double x = Some v -> JS.add 0 v = Some v.
Proof.
  intros H. unfold JS.add. rewrite (double_comp (0 + v) v) by ring.
  exact (double_fixed x v H).
Qed.

End Doubles.

(** ** The rotation angle of the rocket column *)

Section Angle.

Variables (bound : Q).
Hypothesis bound_double : JS.isDouble bound = true.
Hypothesis bound_pos : 0 < bound.

(** What [getAngle] computes: the quotient, rounded, times 360, rounded, and
    [Math.round] of that. *)
Lemma getAngle_eq (pos : Q) :
  JS.isDouble pos = true ->
  RocketAppleColumn.getAngle pos bound =
    option_map JS.Math_round
      (JS.andThen (JS.double (pos / bound)) (fun progress => JS.double (progress * 360))).
Proof.
  intros Hpos. unfold RocketAppleColumn.getAngle, Reanimated.interpolate.
  destruct (sub_0 bound bound_double) as (width & -> & Ewidth).
  destruct (sub_0 pos Hpos) as (offset & -> & Eoffset).
  cbn [JS.andThen].
  destruct (Qeq_bool width 0) eqn:Ezero.
  { apply Qeq_bool_iff in Ezero. lra. }
  unfold JS.div. rewrite Ezero.
  rewrite (double_comp (offset / width) (pos / bound))
    by (rewrite Eoffset, Ewidth; reflexivity).
  destruct (JS.double (pos / bound)) as [progress|]; [|reflexivity].
  cbn [JS.andThen].
  assert (Espan : JS.sub 360 0 = Some 360) by (vm_compute; reflexivity).
  rewrite Espan. cbn [JS.andThen]. unfold JS.mul.
  destruct (JS.double (progress * 360)) as [scaled|] eqn:Escaled; [|reflexivity].
  cbn [JS.andThen]. now rewrite (add_0 _ _ Escaled).
Qed.

Lemma progress_range (pos : Q) :
  0 <= pos -> pos <= bound -> 0 <= pos / bound /\ pos / bound <= 1.
Proof.
  intros H0 H1. split.
  - apply Qle_shift_div_l; [exact bound_pos | lra].
  - apply Qle_shift_div_r; [exact bound_pos | lra].
Qed.

Lemma progress_le (p q : Q) : p <= q -> p / bound <= q / bound.
Proof.
  intros H. unfold Qdiv. apply Qmult_le_compat_r; [exact H|].
  apply Qlt_le_weak, Qinv_lt_0_compat, bound_pos.
Qed.

(** On the track no operation overflows. *)
Lemma getAngle_track (pos : Q) :
  JS.isDouble pos = true -> 0 <= pos -> pos <= bound ->
  RocketAppleColumn.getAngle pos bound = Some (JS.Math_round (JS.round64 (JS.round64 (pos / bound) * 360))) /\
  0 <= JS.round64 (pos / bound) /\ JS.round64 (pos / bound) <= 1 /\
  0 <= JS.round64 (JS.round64 (pos / bound) * 360) /\
  JS.round64 (JS.round64 (pos / bound) * 360) <= 360.
Proof.
  intros Hpos H0 H1. destruct (progress_range pos H0 H1) as [Hx0 Hx1].
  assert (Hp0 : 0 <= JS.round64 (pos / bound)) by now apply round64_nonneg.
  assert (Hp1 : JS.round64 (pos / bound) <= 1)
    by (rewrite <- round64_1; now apply round64_le).
  assert (Hv0 : 0 <= JS.round64 (JS.round64 (pos / bound) * 360))
    by (apply round64_nonneg; lra).
  assert (Hv1 : JS.round64 (JS.round64 (pos / bound) * 360) <= 360).
  { rewrite <- round64_360 at 2. apply round64_le; lra. }
  split; [|repeat split; assumption].
  rewrite (getAngle_eq pos Hpos).
  rewrite (double_small (pos / bound)) by lra. cbn [JS.andThen].
  rewrite (double_small (JS.round64 (pos / bound) * 360)) by assumption.
  reflexivity.
Qed.

Lemma spacing_1 :
  inject_Z (JS.spacing (1 * inject_Z JS.units)) / (2 * inject_Z JS.units) == 1 # 9007199254740992.
Proof. vm_compute. reflexivity. Qed.

Lemma spacing_360 :
  inject_Z (JS.spacing (360 * inject_Z JS.units)) / (2 * inject_Z JS.units) == 1 # 35184372088832.
Proof. vm_compute. reflexivity. Qed.

(** The rounded interpolation is close to the exact one. *)
Lemma interpolation_near (pos : Q) :
  0 <= pos -> pos <= bound ->
  360 * pos / bound - (1 # 8796093022208) <= JS.round64 (JS.round64 (pos / bound) * 360) /\
  JS.round64 (JS.round64 (pos / bound) * 360) <= 360 * pos / bound + (1 # 8796093022208).
Proof.
  intros H0 H1. destruct (progress_range pos H0 H1) as [Hx0 Hx1].
  assert (Hp0 : 0 <= JS.round64 (pos / bound)) by now apply round64_nonneg.
  assert (Hp1 : JS.round64 (pos / bound) <= 1)
    by (rewrite <- round64_1; now apply round64_le).
  destruct (round64_near (pos / bound) 1 Hx0 Hx1) as [Hplo Hphi].
  destruct (round64_near (JS.round64 (pos / bound) * 360) 360) as [Hvlo Hvhi]; [lra | lra |].
  rewrite spacing_1 in Hplo, Hphi. rewrite spacing_360 in Hvlo, Hvhi.
  assert (E : 360 * pos / bound == 360 * (pos / bound)) by (field; lra).
  rewrite E.
  set (x := pos / bound) in *. set (p := JS.round64 x) in *.
  set (v := JS.round64 (p * 360)) in *.
  split; lra.
Qed.

Lemma getAngle_0 : RocketAppleColumn.getAngle 0 bound = Some 0%Z.
Proof.
  destruct (getAngle_track 0 eq_refl (Qle_refl 0) (Qlt_le_weak _ _ bound_pos)) as [-> _].
  rewrite (round64_comp (0 / bound) 0) by (field; lra).
  rewrite round64_0. reflexivity.
Qed.

Lemma getAngle_bound : RocketAppleColumn.getAngle bound bound = Some 360%Z.
Proof.
  destruct (getAngle_track bound bound_double (Qlt_le_weak _ _ bound_pos) (Qle_refl bound))
    as [-> _].
  rewrite (round64_comp (bound / bound) 1) by (field; lra).
  rewrite round64_1. reflexivity.
Qed.

Lemma getAngle_le (p q : Q) (a b : Z) :
  JS.isDouble p = true -> JS.isDouble q = true ->
  0 <= p -> p <= q -> q <= bound ->
  RocketAppleColumn.getAngle p bound = Some a -> RocketAppleColumn.getAngle q bound = Some b -> (a <= b)%Z.
Proof.
  intros Hp Hq H0 Hpq H1.
  destruct (getAngle_track p Hp H0 ltac:(lra)) as (-> & Hp0 & _).
  destruct (getAngle_track q Hq ltac:(lra) H1) as (-> & _).
  intros [= <-] [= <-].
  destruct (progress_range p H0 ltac:(lra)) as [Hx0 _].
  apply Math_round_le, round64_le; [lra|].
  apply Qmult_le_compat_r; [|lra].
  apply round64_le; [exact Hx0 | now apply progress_le].
Qed.

End Angle.

(** C6, as stated, fails: the code interpolates in doubles, and the rounding
    of the quotient can take the interpolated value to the other side of a
    half.  For the position 7 and the bound 80 the line gives 31.5, which
    rounds to 32; the code divides 7 by 80, which gives the double under
    0.0875, multiplies by 360, which gives 31.499999999999996, and returns
    31. *)
Lemma getAngle_not_exact :
  ~ (forall pos bound : Q,
        JS.isDouble pos = true -> JS.isDouble bound = true -> 0 < bound ->
        RocketAppleColumn.getAngle pos bound = Some (Spec.angle pos bound)).
Proof.
  intros H.
  assert (H7 : JS.isDouble 7 = true) by (vm_compute; reflexivity).
  assert (H80 : JS.isDouble 80 = true) by (vm_compute; reflexivity).
  specialize (H 7 80 H7 H80 eq_refl).
  vm_compute in H. discriminate H.
Qed.

(** C6, amended: for doubles [pos] and [bound], the bound positive, the angle
    is [Math.round] of the interpolation computed in doubles: the quotient
    [pos / bound] rounded to a double, times 360, rounded to a double.  For a
    position between 0 and the bound no operation overflows; the angle is an
    integer between 0 and 360, within [1/2 + 2^-43] of [360 * pos / bound],
    and so equal to [round(lerp(pos, [0, bound] -> [0, 360]))] or next to it.
    The angle of 0 is 0, the angle of the bound is 360, and the angle does
    not decrease as the position grows from 0 to the bound. *)
Theorem getAngle_round_lerp (bound : Q) :
  JS.isDouble bound = true -> 0 < bound ->
  (forall pos, JS.isDouble pos = true ->
      RocketAppleColumn.getAngle pos bound =
        option_map JS.Math_round
          (JS.andThen (JS.double (pos / bound))
             (fun progress => JS.double (progress * 360)))) /\
  (forall pos, JS.isDouble pos = true -> 0 <= pos -> pos <= bound ->
      exists a,
        RocketAppleColumn.getAngle pos bound = Some a /\
        a = JS.Math_round (JS.round64 (JS.round64 (pos / bound) * 360)) /\
        (0 <= a <= 360)%Z /\
        360 * pos / bound - (1 # 2) - (1 # 8796093022208) <= inject_Z a /\
        inject_Z a <= 360 * pos / bound + (1 # 2) + (1 # 8796093022208) /\
        (Z.abs (a - Spec.angle pos bound) <= 1)%Z) /\
  RocketAppleColumn.getAngle 0 bound = Some 0%Z /\
  RocketAppleColumn.getAngle bound bound = Some 360%Z /\
  (forall p q a b,
      JS.isDouble p = true -> JS.isDouble q = true ->
      0 <= p -> p <= q -> q <= bound ->
      RocketAppleColumn.getAngle p bound = Some a ->
      RocketAppleColumn.getAngle q bound = Some b -> (a <= b)%Z).
Proof.
  intros Hd Hb.
  split; [|split; [|split; [|split]]].
  - intros pos Hpos. now apply getAngle_eq.
  - intros pos Hpos H0 H1.
    destruct (getAngle_track bound Hd Hb pos Hpos H0 H1) as (Heq & _ & _ & Hv0 & Hv1).
    destruct (interpolation_near bound Hb pos H0 H1) as [Hlo Hhi].
    set (v := JS.round64 (JS.round64 (pos / bound) * 360)) in *.
    exists (JS.Math_round v). split; [exact Heq|]. split; [reflexivity|].
    destruct (Math_round_nearest v) as [Hrlo Hrhi].
    assert (Hrange : (0 <= JS.Math_round v <= 360)%Z).
    { split.
      - rewrite <- (Math_round_Z 0). now apply Math_round_le.
      - rewrite <- (Math_round_Z 360). now apply Math_round_le. }
    split; [exact Hrange|]. split; [lra|]. split; [lra|].
    unfold Spec.angle. fold (JS.Math_round (Spec.lerp pos 0 bound 0 360)).
    assert (El : Spec.lerp pos 0 bound 0 360 == 360 * pos / bound)
      by (unfold Spec.lerp; field; lra).
    rewrite (Math_round_eq _ _ El).
    destruct (Math_round_nearest (360 * pos / bound)) as [Hslo Hshi].
    set (a := JS.Math_round v) in *. set (s := JS.Math_round (360 * pos / bound)) in *.
    assert (Hup : inject_Z a < inject_Z (s + 2)).
    { rewrite inject_Z_plus. change (inject_Z 2) with 2. lra. }
    assert (Hdown : inject_Z s < inject_Z (a + 2)).
    { rewrite inject_Z_plus. change (inject_Z 2) with 2. lra. }
    rewrite <- Zlt_Qlt in Hup, Hdown. lia.
  - now apply getAngle_0.
  - now apply getAngle_bound.
  - intros p q a b. now apply getAngle_le.
Qed.

Lemma getAngle_round_lerp_witness :
  JS.isDouble 250 = true /\ 0 < 250 /\
  JS.isDouble 125 = true /\ 0 <= 125 /\ 125 <= 250 /\
  RocketAppleColumn.getAngle 125 250 = Some 180%Z /\
  RocketAppleColumn.getAngle 250 250 = Some 360%Z.
Proof.
  assert (Hd : JS.isDouble 250 = true) by (vm_compute; reflexivity).
  assert (Hb : 0 < 250) by reflexivity.
  assert (Hpos : JS.isDouble 125 = true) by (vm_compute; reflexivity).
  assert (H0 : 0 <= 125) by discriminate.
  assert (H1 : 125 <= 250) by discriminate.
  split; [exact Hd|]. split; [exact Hb|]. split; [exact Hpos|].
  split; [exact H0|]. split; [exact H1|].
  destruct (getAngle_round_lerp 250 Hd Hb) as (_ & Htrack & _ & Hend & _).
  split; [|exact Hend].
  destruct (Htrack 125 Hpos H0 H1) as (a & Ha & Hval & _).
  rewrite Ha, Hval. vm_compute. reflexivity.
Defined.

(** ** The bound the screen derives from the window *)

Lemma gt_spec (a b : Q) : reflect (b < a) (JS.gt a b).
Proof.
  unfold JS.gt. destruct (Qle_bool a b) eqn:E; constructor.
  - apply Qle_bool_iff in E. lra.
  - apply Qnot_le_lt. intro H. apply Qle_bool_iff in H. congruence.
Qed.

Lemma ge_spec (a b : Q) : reflect (b <= a) (JS.ge a b).
Proof.
  unfold JS.ge. destruct (Qle_bool b a) eqn:E; constructor.
  - now apply Qle_bool_iff.
  - intro H. apply Qle_bool_iff in H. congruence.
Qed.

Lemma le_spec (a b : Q) : reflect (a <= b) (JS.le a b).
Proof. exact (ge_spec b a). Qed.

Lemma lt_spec (a b : Q) : reflect (a < b) (JS.lt a b).
Proof. exact (gt_spec b a). Qed.



(** ** The ticker of the JS thread *)

Section Ticker.

Import AntigravityScreen.

Variable B : Q.

Lemma bridgeUpdater_next (pos dir : Q) :
  fst (bridgeUpdater B pos dir) = pos + 5 * dir.
Proof.
  unfold bridgeUpdater.
  now destruct (JS.ge (pos + 5 * dir) B || JS.le (pos + 5 * dir) 0).
Qed.

Lemma bridgeUpdater_flip (pos dir : Q) :
  B <= pos + 5 * dir \/ pos + 5 * dir <= 0 ->
  snd (bridgeUpdater B pos dir) = dir * -1.
Proof.
  intros H. unfold bridgeUpdater.
  destruct (ge_spec (pos + 5 * dir) B), (le_spec (pos + 5 * dir) 0);
    simpl; try reflexivity.
  tauto.
Qed.

Lemma bridgeUpdater_keep (pos dir : Q) :
  ~ (B <= pos + 5 * dir \/ pos + 5 * dir <= 0) ->
  snd (bridgeUpdater B pos dir) = dir.
Proof.
  intros H. unfold bridgeUpdater.
  destruct (ge_spec (pos + 5 * dir) B), (le_spec (pos + 5 * dir) 0);
    simpl; try reflexivity; tauto.
Qed.

(** The updater and the recurrence of the spec agree on equal arguments. *)
Lemma bridgeUpdater_reflect (pos dir pos' dir' : Q) :
  pos == pos' -> dir == dir' ->
  fst (bridgeUpdater B pos dir) == fst (Spec.reflecting_bounce 5 B (pos', dir')) /\
  snd (bridgeUpdater B pos dir) == snd (Spec.reflecting_bounce 5 B (pos', dir')).
Proof.
  intros Hp Hd. unfold Spec.reflecting_bounce.
  assert (Hn : pos + 5 * dir == pos' + 5 * dir') by (rewrite Hp, Hd; reflexivity).
  rewrite bridgeUpdater_next.
  destruct (Qlt_le_dec (pos' + 5 * dir') B) as [Hlt | Hge].
  - destruct (Qlt_le_dec 0 (pos' + 5 * dir')) as [Hgt | Hle]; simpl.
    + rewrite bridgeUpdater_keep by lra. now split.
    + rewrite bridgeUpdater_flip by lra. split; [exact Hn | lra].
  - simpl. rewrite bridgeUpdater_flip by lra. split; [exact Hn | lra].
Qed.

Lemma ticks_succ (n : nat) (s : State) :
  ticks B (S n) s = bridgeInterval B (ticks B n s).
Proof. reflexivity. Qed.

Lemma bridgeInterval_pos (s : State) :
  bridgePos (bridgeInterval B s) = fst (bridgeUpdater B (bridgePos s) (bridgeDirection s)).
Proof.
  unfold bridgeInterval.
  now destruct (bridgeUpdater B (bridgePos s) (bridgeDirection s)).
Qed.

Lemma bridgeInterval_dir (s : State) :
  bridgeDirection (bridgeInterval B s) = snd (bridgeUpdater B (bridgePos s) (bridgeDirection s)).
Proof.
  unfold bridgeInterval.
  now destruct (bridgeUpdater B (bridgePos s) (bridgeDirection s)).
Qed.

Lemma bridgeInterval_isJammed (s : State) :
  isJammed (bridgeInterval B s) = isJammed s.
Proof.
  unfold bridgeInterval.
  now destruct (bridgeUpdater B (bridgePos s) (bridgeDirection s)).
Qed.

Lemma ticks_reflect (n : nat) :
  bridgePos (ticks B n mount) == fst (Nat.iter n (Spec.reflecting_bounce 5 B) (0, 1)) /\
  bridgeDirection (ticks B n mount) == snd (Nat.iter n (Spec.reflecting_bounce 5 B) (0, 1)).
Proof.
  induction n as [|n [IHp IHd]].
  - simpl. split; reflexivity.
  - rewrite ticks_succ, bridgeInterval_pos, bridgeInterval_dir.
    rewrite Nat.iter_succ.
    destruct (Nat.iter n (Spec.reflecting_bounce 5 B) (0, 1)) as [pos' dir'].
    now apply bridgeUpdater_reflect.
Qed.

(** While the position stays under the bound the ball rises by 5 a tick and
    the direction is not reflected. *)
Lemma ticks_rising (n : nat) :
  inject_Z (5 * Z.of_nat n) < B ->
  bridgePos (ticks B n mount) == inject_Z (5 * Z.of_nat n) /\
  bridgeDirection (ticks B n mount) = 1.
Proof.
  induction n as [|n IH]; intros Hlt.
  - simpl. split; reflexivity.
  - assert (Hstep : inject_Z (5 * Z.of_nat (S n)) == inject_Z (5 * Z.of_nat n) + 5).
    { replace (5 * Z.of_nat (S n))%Z with (5 * Z.of_nat n + 5)%Z by lia.
      rewrite inject_Z_plus. reflexivity. }
    assert (Hnonneg : 0 <= inject_Z (5 * Z.of_nat n)).
    { change 0 with (inject_Z 0). rewrite <- Zle_Qle. lia. }
    destruct IH as [IHp IHd]; [lra|].
    rewrite ticks_succ, bridgeInterval_pos, bridgeInterval_dir.
    rewrite bridgeUpdater_next, bridgeUpdater_keep; rewrite IHd.
    + split; [rewrite IHp, Hstep; ring | reflexivity].
    + rewrite IHp. lra.
Qed.

End Ticker.

(** C4: after any number of ticks the position and the direction are those
    of the reflecting bounce of the spec, applied that many times to position
    0 and direction +1 with step 5; with the bound 250 the ball rises by 5 a
    tick without reflection for 49 ticks, and the 50th tick puts it at 250
    and turns the direction to -1. *)
Theorem ticks_reflecting_bounce :
  (forall (B : Q) (N : nat),
      AntigravityScreen.bridgePos (AntigravityScreen.ticks B N AntigravityScreen.mount)
        == fst (Nat.iter N (Spec.reflecting_bounce 5 B) (0, 1)) /\
      AntigravityScreen.bridgeDirection (AntigravityScreen.ticks B N AntigravityScreen.mount)
        == snd (Nat.iter N (Spec.reflecting_bounce 5 B) (0, 1))) /\
  (forall k : nat, (k < 50)%nat ->
      AntigravityScreen.bridgePos (AntigravityScreen.ticks 250 k AntigravityScreen.mount)
        == inject_Z (5 * Z.of_nat k) /\
      AntigravityScreen.bridgeDirection (AntigravityScreen.ticks 250 k AntigravityScreen.mount)
        = 1) /\
  AntigravityScreen.bridgePos (AntigravityScreen.ticks 250 50 AntigravityScreen.mount) = 250 /\
  AntigravityScreen.bridgeDirection (AntigravityScreen.ticks 250 50 AntigravityScreen.mount) = -1.
Proof.
  split; [|split; [|split]].
  - intros B N. apply ticks_reflect.
  - intros k Hk. apply ticks_rising.
    change 250 with (inject_Z 250). rewrite <- Zlt_Qlt. lia.
  - vm_compute. reflexivity.
  - vm_compute. reflexivity.
Qed.

Lemma ticks_reflecting_bounce_witness :
  (49 < 50)%nat /\
  AntigravityScreen.bridgePos (AntigravityScreen.ticks 250 49 AntigravityScreen.mount)
    == inject_Z (5 * Z.of_nat 49) /\
  AntigravityScreen.bridgeDirection (AntigravityScreen.ticks 250 49 AntigravityScreen.mount) = 1.
Proof.
  assert (H : (49 < 50)%nat) by lia.
  split; [exact H|].
  exact (proj1 (proj2 ticks_reflecting_bounce) 49%nat H).
Defined.

(** The updater keeps a position that has passed the bound: from 250 with
    the bound 252 the next position is 255. *)
Example bridgeUpdater_overshoot :
  AntigravityScreen.bridgeUpdater 252 250 1 = (255, -1).
Proof. reflexivity. Qed.

(** C5, as stated, fails: a next position that reaches the bound without
    passing it (245 + 5 with the bound 250) already turns the direction. *)
Lemma bridgeUpdater_flips_at_bound :
  ~ (forall B pos dir : Q,
        dir == 1 \/ dir == -1 ->
        (snd (AntigravityScreen.bridgeUpdater B pos dir) == - dir <->
         (B < pos + 5 * dir \/ pos + 5 * dir < 0))).
Proof.
  intros H.
  destruct (H 250 245 1 (or_introl (Qeq_refl 1))) as [Hflip _].
  assert (Hbad : 250 < 245 + 5 * 1 \/ 245 + 5 * 1 < 0) by (apply Hflip; reflexivity).
  destruct Hbad as [Hbad | Hbad]; vm_compute in Hbad; discriminate.
Qed.

(** C5, amended: a tick computes [next = pos + 5 * dir] and returns it as it
    is, without clamping; it turns the direction exactly when [next] is at or
    past the bound, or at or under zero. *)
Theorem bridgeUpdater_rule (B pos dir : Q) :
  fst (AntigravityScreen.bridgeUpdater B pos dir) = pos + 5 * dir /\
  (B <= pos + 5 * dir \/ pos + 5 * dir <= 0 ->
     snd (AntigravityScreen.bridgeUpdater B pos dir) = dir * -1) /\
  (~ (B <= pos + 5 * dir \/ pos + 5 * dir <= 0) ->
     snd (AntigravityScreen.bridgeUpdater B pos dir) = dir) /\
  (~ dir == 0 ->
     (snd (AntigravityScreen.bridgeUpdater B pos dir) == - dir <->
      (B <= pos + 5 * dir \/ pos + 5 * dir <= 0))).
Proof.
  split; [|split; [|split]].
  - apply bridgeUpdater_next.
  - apply bridgeUpdater_flip.
  - apply bridgeUpdater_keep.
  - intros Hdir. split.
    + intros Hflip.
      destruct (Qlt_le_dec (pos + 5 * dir) B) as [Hlt | Hge]; [|now left].
      destruct (Qlt_le_dec 0 (pos + 5 * dir)) as [Hgt | Hle]; [|now right].
      rewrite bridgeUpdater_keep in Hflip by lra.
      exfalso. apply Hdir. lra.
    + intros Hcond. rewrite bridgeUpdater_flip by assumption. ring.
Qed.

Lemma bridgeUpdater_rule_witness :
  (250 <= 245 + 5 * 1 \/ 245 + 5 * 1 <= 0) /\
  snd (AntigravityScreen.bridgeUpdater 250 245 1) = 1 * -1.
Proof.
  assert (H : 250 <= 245 + 5 * 1 \/ 245 + 5 * 1 <= 0) by (left; discriminate).
  split; [exact H|].
  exact (proj1 (proj2 (bridgeUpdater_rule 250 245 1)) H).
Defined.

(** ** The worker and the counter it shares *)

Section Worker.

Import Reanimated Worklets WorkerColumn.

Lemma for_upto_count (n c : N) :
  for_upto n (fun _ calls => N.succ calls) c = (c + n)%N.
Proof.
  unfold for_upto. induction n as [|n IH] using N.peano_ind.
  - rewrite N.recursion_0. lia.
  - rewrite N.recursion_succ; [rewrite IH; lia | reflexivity |].
    intros i j _ a b Hab. now subst.
Qed.

Lemma workerInterval_bgCount (s : State) :
  getDirty (bgCount (workerInterval s)) = (getDirty (bgCount s) + 1)%Z.
Proof. reflexivity. Qed.

Lemma workerInterval_sqrtCalls (s : State) :
  sqrtCalls (workerInterval s) = (sqrtCalls s + 2000000)%N.
Proof. unfold workerInterval. cbn [sqrtCalls]. apply for_upto_count. Qed.

Variable bounceHeight : Q.

Lemma frameCallback_bgCount (now : Q) (s : State) :
  bgCount (fst (frameCallback bounceHeight now s)) = bgCount s.
Proof.
  unfold frameCallback.
  now destruct (negb (displayCount s =? getDirty (bgCount s))%Z).
Qed.

Lemma frame_eq (now : Q) (s : State) :
  frame bounceHeight now s = frameCallback bounceHeight now (animate now s).
Proof. reflexivity. Qed.

Lemma frame_snd (now : Q) (s : State) :
  snd (frame bounceHeight now s) = snd (frameCallback bounceHeight now s).
Proof.
  unfold frame, frameCallback. cbn [animate bgCount displayCount].
  now destruct (negb (displayCount s =? getDirty (bgCount s))%Z).
Qed.

Lemma frame_bgCount (now : Q) (s : State) :
  bgCount (fst (frame bounceHeight now s)) = bgCount s.
Proof. rewrite frame_eq, frameCallback_bgCount. reflexivity. Qed.

(** After a frame the mirror holds the value of the counter. *)
Lemma frameCallback_synced (now : Q) (s : State) :
  displayCount (fst (frameCallback bounceHeight now s)) = getDirty (bgCount s).
Proof.
  unfold frameCallback.
  destruct (Z.eqb_spec (displayCount s) (getDirty (bgCount s))) as [E | E];
    cbn [negb fst displayCount]; [exact E | reflexivity].
Qed.

Lemma frame_synced (now : Q) (s : State) :
  displayCount (fst (frame bounceHeight now s)) = getDirty (bgCount s).
Proof. rewrite frame_eq, frameCallback_synced. reflexivity. Qed.

(** A frame that reads the value the mirror holds writes nothing. *)
Lemma frameCallback_same (now : Q) (s : State) :
  getDirty (bgCount s) = displayCount s ->
  frameCallback bounceHeight now s = (s, []).
Proof.
  intros E. unfold frameCallback. rewrite E, Z.eqb_refl. reflexivity.
Qed.

(** A frame that reads another value writes the mirror and starts a bounce. *)
Lemma frameCallback_changed (now : Q) (s : State) :
  getDirty (bgCount s) <> displayCount s ->
  frameCallback bounceHeight now s =
    ({| bgCount := bgCount s;
        displayCount := getDirty (bgCount s);
        ballY := set_animation (bounce bounceHeight) now (ballY s);
        runtimeRef := runtimeRef s;
        sqrtCalls := sqrtCalls s |},
     [Write_displayCount (getDirty (bgCount s)); Write_ballY (bounce bounceHeight)]).
Proof.
  intros E. unfold frameCallback.
  destruct (Z.eqb_spec (displayCount s) (getDirty (bgCount s))) as [E' | E'].
  - congruence.
  - reflexivity.
Qed.

Lemma run_cons (e : Event) (events : list Event) (s : State) :
  run bounceHeight (e :: events) s =
    (fst (run bounceHeight events (fst (step bounceHeight e s))),
     snd (step bounceHeight e s) ++ snd (run bounceHeight events (fst (step bounceHeight e s)))).
Proof.
  cbn [run]. destruct (step bounceHeight e s) as [s1 w1]. cbn [fst snd].
  now destruct (run bounceHeight events s1).
Qed.

Lemma run_app (events1 events2 : list Event) (s : State) :
  run bounceHeight (events1 ++ events2) s =
    (fst (run bounceHeight events2 (fst (run bounceHeight events1 s))),
     snd (run bounceHeight events1 s)
       ++ snd (run bounceHeight events2 (fst (run bounceHeight events1 s)))).
Proof.
  revert s. induction events1 as [|e events1 IH]; intros s.
  - cbn [app run fst snd]. now destruct (run bounceHeight events2 s).
  - rewrite <- app_comm_cons, !run_cons, IH. cbn [fst snd].
    now rewrite app_assoc.
Qed.

Lemma step_bgCount (e : Event) (s : State) :
  getDirty (bgCount (fst (step bounceHeight e s))) =
    (getDirty (bgCount s) + (if isFire e then 1 else 0))%Z.
Proof.
  destruct e as [|now]; cbn [step isFire fst].
  - apply workerInterval_bgCount.
  - rewrite frame_bgCount. lia.
Qed.

Lemma run_bgCount (events : list Event) (s : State) :
  getDirty (bgCount (fst (run bounceHeight events s))) =
    (getDirty (bgCount s) + Z.of_nat (fires events))%Z.
Proof.
  revert s. induction events as [|e events IH]; intros s.
  - cbn. lia.
  - rewrite run_cons. cbn [fst]. rewrite IH, step_bgCount.
    unfold fires. cbn [filter]. destruct (isFire e); cbn [List.length]; lia.
Qed.

End Worker.

(** C1: the counter starts at 0 in the one runtime the column makes, whose
    only timer has the period 1500; a firing of that timer makes two million
    calls of [Math.sqrt] and then adds exactly 1 to the counter; frames leave
    the counter alone.  So over any sequence of firings and frames the counter
    is the number of firings so far: every event leaves it or adds 1 to it,
    and it never goes down. *)
Theorem bgCount_counts_firings :
  Worklets.getDirty (WorkerColumn.bgCount WorkerColumn.mount) = 0%Z /\
  WorkerColumn.runtimeRef WorkerColumn.mount =
    Some {| Worklets.name := "BlogWorker";
            Worklets.intervals :=
              [ {| Worklets.handler := WorkerColumn.workerTick;
                   Worklets.period := 1500 |} ] |} /\
  WorkerColumn.render WorkerColumn.mount = WorkerColumn.mount /\
  (forall s,
      Worklets.getDirty (WorkerColumn.bgCount (WorkerColumn.workerInterval s))
        = (Worklets.getDirty (WorkerColumn.bgCount s) + 1)%Z /\
      WorkerColumn.sqrtCalls (WorkerColumn.workerInterval s)
        = (WorkerColumn.sqrtCalls s + 2000000)%N) /\
  (forall bounceHeight e s,
      let after := Worklets.getDirty
                     (WorkerColumn.bgCount (fst (WorkerColumn.step bounceHeight e s))) in
      (WorkerColumn.isFire e = true /\ after = Worklets.getDirty (WorkerColumn.bgCount s) + 1
       \/ WorkerColumn.isFire e = false /\ after = Worklets.getDirty (WorkerColumn.bgCount s))%Z) /\
  (forall bounceHeight events,
      Worklets.getDirty
        (WorkerColumn.bgCount (fst (WorkerColumn.run bounceHeight events WorkerColumn.mount)))
        = Z.of_nat (WorkerColumn.fires events)) /\
  (forall bounceHeight earlier later s,
      (Worklets.getDirty
         (WorkerColumn.bgCount (fst (WorkerColumn.run bounceHeight earlier s)))
       <= Worklets.getDirty
            (WorkerColumn.bgCount (fst (WorkerColumn.run bounceHeight (earlier ++ later) s))))%Z).
Proof.
  split; [reflexivity|].
  split; [reflexivity|].
  split; [reflexivity|].
  split; [|split; [|split]].
  - intros s. split.
    + apply workerInterval_bgCount.
    + apply workerInterval_sqrtCalls.
  - intros bounceHeight e s after. subst after.
    rewrite step_bgCount. destruct (WorkerColumn.isFire e).
    + left. split; [reflexivity | lia].
    + right. split; [reflexivity | lia].
  - intros bounceHeight events. now rewrite run_bgCount.
  - intros bounceHeight earlier later s.
    rewrite run_app. cbn [fst]. rewrite (run_bgCount bounceHeight later). lia.
Qed.

(** ** The frame callback *)

Section Poller.

Import Reanimated Worklets WorkerColumn.

Variable bounceHeight : Q.

Lemma bounces_app (w1 w2 : list Write) :
  bounces (w1 ++ w2) = (bounces w1 + bounces w2)%nat.
Proof. unfold bounces. now rewrite filter_app, length_app. Qed.

Lemma displayed_app (w1 w2 : list Write) :
  displayed (w1 ++ w2) = displayed w1 ++ displayed w2.
Proof. unfold displayed. apply flat_map_app. Qed.

Lemma step_gap (e : Event) (s : State) :
  (0 <= gap s)%Z ->
  (0 <= gap (fst (step bounceHeight e s)))%Z /\
  (Z.of_nat (bounces (snd (step bounceHeight e s))) + gap (fst (step bounceHeight e s))
   <= (if isFire e then 1 else 0) + gap s)%Z.
Proof.
  unfold gap. intros Hgap. destruct e as [|now]; cbn [step isFire fst snd].
  - rewrite workerInterval_bgCount. cbn [workerInterval displayCount bounces filter List.length].
    lia.
  - rewrite frame_bgCount, frame_synced, frame_snd.
    destruct (Z.eq_dec (getDirty (bgCount s)) (displayCount s)) as [E | E].
    + rewrite frameCallback_same by assumption.
      cbn [snd bounces filter isBounce List.length]. lia.
    + rewrite frameCallback_changed by assumption.
      cbn [snd bounces filter isBounce List.length]. lia.
Qed.

Lemma run_gap (events : list Event) (s : State) :
  (0 <= gap s)%Z ->
  (0 <= gap (fst (run bounceHeight events s)))%Z /\
  (Z.of_nat (bounces (snd (run bounceHeight events s))) + gap (fst (run bounceHeight events s))
   <= Z.of_nat (fires events) + gap s)%Z.
Proof.
  revert s. induction events as [|e events IH]; intros s Hgap.
  - cbn. lia.
  - rewrite run_cons. cbn [fst snd]. rewrite bounces_app.
    destruct (step_gap e s Hgap) as [H0 H1].
    destruct (IH _ H0) as [H2 H3].
    split; [exact H2|].
    unfold fires in *. cbn [filter]. destruct (isFire e); cbn [List.length]; lia.
Qed.

Lemma run_fire_only (k : nat) (s : State) :
  run bounceHeight (repeat WorkerFire k) s = (Nat.iter k workerInterval s, []).
Proof.
  revert s. induction k as [|k IH]; intros s.
  - reflexivity.
  - cbn [repeat]. rewrite run_cons. cbn [step fst snd]. rewrite IH. cbn [fst snd app].
    now rewrite <- Nat.iter_succ_r.
Qed.

Lemma fire_only_counts (k : nat) (s : State) :
  getDirty (bgCount (Nat.iter k workerInterval s)) = (getDirty (bgCount s) + Z.of_nat k)%Z /\
  displayCount (Nat.iter k workerInterval s) = displayCount s.
Proof.
  induction k as [|k [IHb IHd]].
  - cbn. split; [lia | reflexivity].
  - rewrite Nat.iter_succ, workerInterval_bgCount, IHb.
    cbn [workerInterval displayCount]. split; [lia | exact IHd].
Qed.

End Poller.

(** C3: a call of the frame callback that reads the value the mirror already
    holds leaves the whole state as it is and writes nothing, so it starts no
    bounce; of two frames in a row with no firing between them the second
    writes nothing; and over any sequence of firings and frames since the
    mount there are at most as many bounces as firings. *)
Theorem frameCallback_idempotent (bounceHeight : Q) :
  (forall now s,
      Worklets.getDirty (WorkerColumn.bgCount s) = WorkerColumn.displayCount s ->
      WorkerColumn.frameCallback bounceHeight now s = (s, [])) /\
  (forall now1 now2 s,
      let s1 := fst (WorkerColumn.frame bounceHeight now1 s) in
      WorkerColumn.frameCallback bounceHeight now2 s1 = (s1, []) /\
      WorkerColumn.bounces (snd (WorkerColumn.frame bounceHeight now2 s1)) = 0%nat) /\
  (forall events,
      (WorkerColumn.bounces (snd (WorkerColumn.run bounceHeight events WorkerColumn.mount))
       <= WorkerColumn.fires events)%nat).
Proof.
  split; [|split].
  - intros now s E. now apply frameCallback_same.
  - intros now1 now2 s s1.
    assert (E : Worklets.getDirty (WorkerColumn.bgCount s1) = WorkerColumn.displayCount s1).
    { subst s1. now rewrite frame_bgCount, frame_synced. }
    split.
    + now apply frameCallback_same.
    + rewrite frame_snd, frameCallback_same by assumption. reflexivity.
  - intros events.
    destruct (run_gap bounceHeight events WorkerColumn.mount) as [H0 H1].
    + cbn. lia.
    + change (WorkerColumn.gap WorkerColumn.mount) with 0%Z in H1. lia.
Qed.

Lemma frameCallback_idempotent_witness :
  Worklets.getDirty (WorkerColumn.bgCount WorkerColumn.mount)
    = WorkerColumn.displayCount WorkerColumn.mount /\
  WorkerColumn.frameCallback 250 16 WorkerColumn.mount = (WorkerColumn.mount, []).
Proof.
  split; [reflexivity|].
  apply (proj1 (frameCallback_idempotent 250)). reflexivity.
Defined.

(** C10: when the worker has fired [k > 1] times since the last frame, the
    next frame writes the mirror once, with the latest value of the counter
    and none of the [k - 1] values before it, and starts one bounce. *)
Theorem frameCallback_skips_to_latest (bounceHeight now1 now2 : Q) (k : nat)
    (s : WorkerColumn.State) :
  (1 < k)%nat ->
  let s1 := fst (WorkerColumn.frame bounceHeight now1 s) in
  let fired := fst (WorkerColumn.run bounceHeight (repeat WorkerColumn.WorkerFire k) s1) in
  let s2 := fst (WorkerColumn.frame bounceHeight now2 fired) in
  let writes :=
    snd (WorkerColumn.run bounceHeight
           (repeat WorkerColumn.WorkerFire k ++ [WorkerColumn.Frame now2]) s1) in
  Worklets.getDirty (WorkerColumn.bgCount fired) = (WorkerColumn.displayCount s1 + Z.of_nat k)%Z /\
  WorkerColumn.displayCount fired = WorkerColumn.displayCount s1 /\
  WorkerColumn.displayCount s2 = (WorkerColumn.displayCount s1 + Z.of_nat k)%Z /\
  writes = [WorkerColumn.Write_displayCount (WorkerColumn.displayCount s1 + Z.of_nat k);
            WorkerColumn.Write_ballY (WorkerColumn.bounce bounceHeight)] /\
  WorkerColumn.displayed writes = [(WorkerColumn.displayCount s1 + Z.of_nat k)%Z] /\
  WorkerColumn.bounces writes = 1%nat.
Proof.
  intros Hk s1 fired s2 writes.
  assert (E1 : Worklets.getDirty (WorkerColumn.bgCount s1) = WorkerColumn.displayCount s1).
  { subst s1. now rewrite frame_bgCount, frame_synced. }
  assert (Hfired : fired = Nat.iter k WorkerColumn.workerInterval s1).
  { subst fired. now rewrite run_fire_only. }
  destruct (fire_only_counts k s1) as [Hb Hd]. rewrite <- Hfired in Hb, Hd.
  rewrite E1 in Hb.
  assert (Hne : Worklets.getDirty (WorkerColumn.bgCount fired) <> WorkerColumn.displayCount fired)
    by lia.
  assert (Hw : writes =
    [WorkerColumn.Write_displayCount (WorkerColumn.displayCount s1 + Z.of_nat k);
     WorkerColumn.Write_ballY (WorkerColumn.bounce bounceHeight)]).
  { subst writes. rewrite run_app. cbn [snd]. fold fired.
    rewrite run_fire_only. cbn [snd app]. rewrite run_cons. cbn [WorkerColumn.step WorkerColumn.run snd].
    rewrite app_nil_r, frame_snd, frameCallback_changed by assumption.
    cbn [snd]. now rewrite Hb. }
  split; [exact Hb|]. split; [exact Hd|].
  split; [subst s2; now rewrite frame_synced|].
  split; [exact Hw|].
  rewrite Hw. split; reflexivity.
Qed.

Lemma frameCallback_skips_to_latest_witness :
  (1 < 3)%nat /\
  WorkerColumn.displayed
    (snd (WorkerColumn.run 250
            (repeat WorkerColumn.WorkerFire 3 ++ [WorkerColumn.Frame 32])
            (fst (WorkerColumn.frame 250 16 WorkerColumn.mount))))
  = [3%Z].
Proof.
  assert (H : (1 < 3)%nat) by lia.
  split; [exact H|].
  exact (proj1 (proj2 (proj2 (proj2 (proj2
    (frameCallback_skips_to_latest 250 16 32 3 WorkerColumn.mount H)))))).
Defined.

(** ** Timing animations that nothing disturbs *)

Section Timing.

Import Reanimated.




Variables (r : Running) (toValue : Q) (config : TimingConfig) (callback : option Animation).
Hypothesis r_program : program r = withTiming toValue config callback.







End Timing.

Lemma Easing_inOut_quad_ends :
  Reanimated.Easing_inOut Reanimated.Easing_quad 0 == 0 /\
  Reanimated.Easing_inOut Reanimated.Easing_quad (1 # 2) == 1 # 2 /\
  Reanimated.Easing_inOut Reanimated.Easing_quad 1 == 1.
Proof. repeat split; reflexivity. Qed.


(** ** The bounce the frame callback starts *)

Section Bounce.

Import Reanimated Worklets WorkerColumn.

Variable bounceHeight : Q.




End Bounce.




(** ** Jamming the JS thread *)

Section Jam.

Import AntigravityScreen.

Variable start : Z.

Lemma busyWait_spinning (clock : list Z) :
  Forall (fun now => (now - start < 3000)%Z) clock ->
  busyWait start clock = None.
Proof.
  induction 1 as [|now later Hnow _ IH]; cbn [busyWait].
  - reflexivity.
  - destruct (Z.ltb_spec (now - start) 3000); [exact IH | lia].
Qed.

Lemma busyWait_returns (clock : list Z) (finish : Z) (rest : list Z) :
  busyWait start clock = Some (finish, rest) ->
  (3000 <= finish - start)%Z /\
  exists spun, clock = spun ++ finish :: rest /\
               Forall (fun now => (now - start < 3000)%Z) spun.
Proof.
  induction clock as [|now later IH]; cbn [busyWait]; intros H.
  - discriminate.
  - destruct (Z.ltb_spec (now - start) 3000) as [Hlt | Hge].
    + destruct (IH H) as (Hfin & spun & -> & Hspun).
      split; [exact Hfin|]. exists (now :: spun). split; [reflexivity|].
      now constructor.
    + injection H as <- <-. split; [exact Hge|].
      exists []. split; [reflexivity | constructor].
Qed.

(** On a clock read more than once a millisecond the loop ends on the very
    millisecond [start + 3000], provided the clock gets there. *)
Lemma busyWait_exact (clock : list Z) (prev : Z) :
  (prev - start < 3000)%Z ->
  Clock.ticking prev clock = true ->
  Clock.reaches (start + 3000) clock = true ->
  exists rest, busyWait start clock = Some ((start + 3000)%Z, rest).
Proof.
  revert prev. induction clock as [|now later IH]; intros prev Hprev Htick Hreach.
  - discriminate.
  - cbn [Clock.ticking] in Htick. apply andb_prop in Htick as [Hstep Hlater].
    apply andb_prop in Hstep as [Hlo Hhi].
    apply Z.leb_le in Hlo, Hhi.
    cbn [busyWait]. destruct (Z.ltb_spec (now - start) 3000) as [Hlt | Hge].
    + apply (IH now Hlt Hlater).
      unfold Clock.reaches in *. cbn [existsb] in Hreach.
      apply orb_prop in Hreach as [Hnow | Hrest]; [|exact Hrest].
      apply Z.leb_le in Hnow. lia.
    + exists later. do 2 f_equal. lia.
Qed.

End Jam.

(** C7: [jamJSThread] sets the flag at once and sets one timer, of 50 ms, for
    the blocking function, so that function does not begin in the first 50 ms
    and the flag is true all that while; the ticker leaves the flag alone.
    The blocking function reads the clock, does not return while the clock is
    less than 3000 ms after that reading, and when it returns the flag is
    false, 3000 ms or more have passed and the position of the ball is the one
    it found.  On a clock that is read more than once a millisecond it returns
    exactly 3000 ms after it began. *)
Theorem jamJSThread_sequence (s : AntigravityScreen.State) :
  let s1 := fst (AntigravityScreen.jamJSThread s) in
  let timer := {| AntigravityScreen.callback := AntigravityScreen.jamBody;
                  AntigravityScreen.delay := 50 |} in
  AntigravityScreen.isJammed s1 = true /\
  snd (AntigravityScreen.jamJSThread s) = [timer] /\
  (forall B n, AntigravityScreen.isJammed (AntigravityScreen.ticks B n s1) = true) /\
  (forall setAt start clock,
      (start < setAt + 50)%Z ->
      AntigravityScreen.runTimeout setAt timer (start :: clock) s1 = None) /\
  (forall setAt start clock,
      Forall (fun now => (now - start < 3000)%Z) clock ->
      AntigravityScreen.runTimeout setAt timer (start :: clock) s1 = None) /\
  (forall setAt start clock s2 finish rest,
      AntigravityScreen.runTimeout setAt timer (start :: clock) s1 = Some (s2, finish, rest) ->
      (setAt + 50 <= start)%Z /\
      (3000 <= finish - start)%Z /\
      AntigravityScreen.isJammed s2 = false /\
      AntigravityScreen.bridgePos s2 = AntigravityScreen.bridgePos s /\
      AntigravityScreen.bridgeDirection s2 = AntigravityScreen.bridgeDirection s) /\
  (forall setAt start clock,
      (setAt + 50 <= start)%Z ->
      Clock.ticking start clock = true ->
      Clock.reaches (start + 3000) clock = true ->
      exists rest,
        AntigravityScreen.runTimeout setAt timer (start :: clock) s1
          = Some (AntigravityScreen.setIsJammed false s1, (start + 3000)%Z, rest)).
Proof.
  intros s1 timer. subst timer. split; [reflexivity|]. split; [reflexivity|].
  split; [|split; [|split; [|split]]].
  - intros B n. induction n as [|n IH].
    + reflexivity.
    + now rewrite ticks_succ, bridgeInterval_isJammed.
  - intros setAt start clock Hearly.
    cbn [AntigravityScreen.runTimeout AntigravityScreen.delay].
    destruct (Z.ltb_spec start (setAt + 50)); [reflexivity | lia].
  - intros setAt start clock Hspin.
    cbn [AntigravityScreen.runTimeout AntigravityScreen.delay AntigravityScreen.callback
         AntigravityScreen.runCallback AntigravityScreen.jamCallback].
    destruct (start <? setAt + 50)%Z; [reflexivity|].
    now rewrite busyWait_spinning.
  - intros setAt start clock s2 finish rest.
    cbn [AntigravityScreen.runTimeout AntigravityScreen.delay AntigravityScreen.callback
         AntigravityScreen.runCallback AntigravityScreen.jamCallback].
    destruct (Z.ltb_spec start (setAt + 50)) as [Hearly | Hdue]; [discriminate|].
    destruct (AntigravityScreen.busyWait start clock) as [[finish' rest']|] eqn:Hwait;
      [|discriminate].
    intros H. injection H as <- <- <-.
    destruct (busyWait_returns start clock finish' rest' Hwait) as [Hfin _].
    repeat split; assumption.
  - intros setAt start clock Hdue Htick Hreach.
    destruct (busyWait_exact start clock start ltac:(lia) Htick Hreach) as [rest Hwait].
    exists rest.
    cbn [AntigravityScreen.runTimeout AntigravityScreen.delay AntigravityScreen.callback
         AntigravityScreen.runCallback AntigravityScreen.jamCallback].
    destruct (Z.ltb_spec start (setAt + 50)) as [Hearly | _]; [lia|].
    now rewrite Hwait.
Qed.

Lemma jamJSThread_sequence_witness :
  (0 + 50 <= 50)%Z /\
  Clock.ticking 50 (map Z.of_nat (seq 50 3001)) = true /\
  Clock.reaches (50 + 3000) (map Z.of_nat (seq 50 3001)) = true /\
  exists rest,
    AntigravityScreen.runTimeout 0
      {| AntigravityScreen.callback := AntigravityScreen.jamBody;
         AntigravityScreen.delay := 50 |}
      (50%Z :: map Z.of_nat (seq 50 3001))
      (fst (AntigravityScreen.jamJSThread AntigravityScreen.mount))
    = Some (AntigravityScreen.setIsJammed false
              (fst (AntigravityScreen.jamJSThread AntigravityScreen.mount)),
            (50 + 3000)%Z, rest).
Proof.
  assert (Hdue : (0 + 50 <= 50)%Z) by lia.
  assert (Htick : Clock.ticking 50 (map Z.of_nat (seq 50 3001)) = true)
    by (vm_compute; reflexivity).
  assert (Hreach : Clock.reaches (50 + 3000) (map Z.of_nat (seq 50 3001)) = true)
    by (vm_compute; reflexivity).
  split; [exact Hdue|]. split; [exact Htick|]. split; [exact Hreach|].
  exact (proj2 (proj2 (proj2 (proj2 (proj2 (proj2
    (jamJSThread_sequence AntigravityScreen.mount))))))
    0%Z 50%Z (map Z.of_nat (seq 50 3001)) Hdue Htick Hreach).
Defined.

(** ** The worker column while the JS thread is blocked *)

Section Blocked.

Import WorkerTimer.

Lemma workerPeriod_value : workerPeriod = 1500%Z.
Proof. reflexivity. Qed.

(** [firedBy] counts the firings: the [j]-th one, at [madeAt + period * j],
    is among the first [firedBy madeAt now] exactly when it is due by [now]. *)
Lemma firedBy_counts (madeAt now j : Z) :
  (1 <= j)%Z ->
  (madeAt + workerPeriod * j <= now)%Z <-> (j <= firedBy madeAt now)%Z.
Proof.
  intros Hj. unfold firedBy. rewrite workerPeriod_value.
  pose proof (Z.div_mod (now - madeAt) 1500 ltac:(lia)) as Hdiv.
  pose proof (Z.mod_pos_bound (now - madeAt) 1500 ltac:(lia)) as Hmod.
  split; intros H; lia.
Qed.


End Blocked.



(** * Further properties *)

(** ** The ticker: range, period, and a bound that shrinks *)

Section TickerRange.

Import AntigravityScreen AntigravityScreenEffects.

Variable B : Q.

Lemma bridgeInterval_next (s : State) :
  bridgePos (bridgeInterval B s) = bridgePos s + 5 * bridgeDirection s.
Proof. now rewrite bridgeInterval_pos, bridgeUpdater_next. Qed.

Lemma bridgeInterval_flip (s : State) :
  B <= bridgePos s + 5 * bridgeDirection s \/ bridgePos s + 5 * bridgeDirection s <= 0 ->
  bridgeDirection (bridgeInterval B s) = bridgeDirection s * -1.
Proof. intros H. now rewrite bridgeInterval_dir, bridgeUpdater_flip. Qed.

Lemma bridgeInterval_keep (s : State) :
  ~ (B <= bridgePos s + 5 * bridgeDirection s \/ bridgePos s + 5 * bridgeDirection s <= 0) ->
  bridgeDirection (bridgeInterval B s) = bridgeDirection s.
Proof. intros H. now rewrite bridgeInterval_dir, bridgeUpdater_keep. Qed.

Lemma inject_Z_5_succ (j : Z) : inject_Z (5 * (j + 1)) == inject_Z (5 * j) + 5.
Proof.
  replace (5 * (j + 1))%Z with (5 * j + 5)%Z by lia.
  rewrite inject_Z_plus. reflexivity.
Qed.

Lemma inject_Z_5_pred (j : Z) : inject_Z (5 * (j - 1)) == inject_Z (5 * j) - 5.
Proof.
  replace (5 * (j - 1))%Z with (5 * j + -5)%Z by lia.
  rewrite inject_Z_plus. reflexivity.
Qed.

Lemma inRange_step (s : State) : 0 < B -> inRange B s -> inRange B (bridgeInterval B s).
Proof.
  intros HB [[(Hd & Hlo & Hhi) | (Hd & Hlo & Hhi)] [j Hj]].
  - (* going up *)
    assert (Hnext : bridgePos (bridgeInterval B s) == bridgePos s + 5).
    { rewrite bridgeInterval_next, Hd. ring. }
    split.
    + destruct (Qlt_le_dec (bridgePos s + 5) B) as [Hunder | Hover].
      * left. rewrite bridgeInterval_keep; rewrite Hd; [|lra].
        split; [reflexivity|]. rewrite Hnext. lra.
      * right. rewrite bridgeInterval_flip; rewrite Hd; [|lra].
        split; [reflexivity|]. rewrite Hnext. lra.
    + exists (j + 1)%Z. rewrite Hnext, Hj. symmetry. apply inject_Z_5_succ.
  - (* going down *)
    assert (Hnext : bridgePos (bridgeInterval B s) == bridgePos s - 5).
    { rewrite bridgeInterval_next, Hd. ring. }
    assert (Hj1 : (1 <= j)%Z).
    { rewrite Hj in Hlo. change 0 with (inject_Z 0) in Hlo.
      rewrite <- Zlt_Qlt in Hlo. lia. }
    assert (Hfloor : 0 <= bridgePos s - 5).
    { rewrite Hj, <- inject_Z_5_pred. change 0 with (inject_Z 0).
      rewrite <- Zle_Qle. lia. }
    split.
    + destruct (Qlt_le_dec 0 (bridgePos s - 5)) as [Habove | Hzero].
      * right. rewrite bridgeInterval_keep; rewrite Hd; [|lra].
        split; [reflexivity|]. rewrite Hnext. lra.
      * left. rewrite bridgeInterval_flip; rewrite Hd; [|lra].
        split; [reflexivity|]. rewrite Hnext. lra.
    + exists (j - 1)%Z. rewrite Hnext, Hj. symmetry. apply inject_Z_5_pred.
Qed.

Lemma inRange_ticks (n : nat) : 0 < B -> inRange B (ticks B n mount).
Proof.
  intros HB. induction n as [|n IH].
  - split.
    + left. cbn. repeat split; [discriminate | exact HB].
    + exists 0%Z. reflexivity.
  - rewrite ticks_succ. now apply inRange_step.
Qed.

End TickerRange.

(** X1: from the mount, with a positive bound, the ball never goes under 0
    and never gets a whole step (5) past the bound; its position is always a
    multiple of 5 and its direction +1 or -1, and while the direction is +1
    the ball is under the bound. *)
Theorem ticks_stay_in_range (B : Q) (N : nat) :
  0 < B ->
  0 <= AntigravityScreen.bridgePos (AntigravityScreen.ticks B N AntigravityScreen.mount) /\
  AntigravityScreen.bridgePos (AntigravityScreen.ticks B N AntigravityScreen.mount) < B + 5 /\
  (AntigravityScreen.bridgeDirection (AntigravityScreen.ticks B N AntigravityScreen.mount) = 1 /\
   AntigravityScreen.bridgePos (AntigravityScreen.ticks B N AntigravityScreen.mount) < B
   \/ AntigravityScreen.bridgeDirection (AntigravityScreen.ticks B N AntigravityScreen.mount) = -1) /\
  exists j : Z,
    AntigravityScreen.bridgePos (AntigravityScreen.ticks B N AntigravityScreen.mount)
      == inject_Z (5 * j).
Proof.
  intros HB.
  destruct (inRange_ticks B N HB) as [[(Hd & Hlo & Hhi) | (Hd & Hlo & Hhi)] Hj].
  - repeat split; [exact Hlo | lra | left; now split | exact Hj].
  - repeat split; [lra | exact Hhi | now right | exact Hj].
Qed.

Lemma ticks_stay_in_range_witness :
  0 < 252 /\
  AntigravityScreen.bridgePos (AntigravityScreen.ticks 252 51 AntigravityScreen.mount) < 252 + 5.
Proof.
  assert (H : 0 < 252) by reflexivity.
  split; [exact H|].
  exact (proj1 (proj2 (ticks_stay_in_range 252 51 H))).
Defined.

Section TickerPeriod.

Import AntigravityScreen.

Variable B : Q.

(** The interval treats alike two states with equal positions and the same
    direction. *)
Lemma bridgeInterval_congr (s s' : State) :
  bridgePos s == bridgePos s' -> bridgeDirection s = bridgeDirection s' ->
  bridgePos (bridgeInterval B s) == bridgePos (bridgeInterval B s') /\
  bridgeDirection (bridgeInterval B s) = bridgeDirection (bridgeInterval B s').
Proof.
  intros Hp Hd.
  assert (Hn : bridgePos s + 5 * bridgeDirection s == bridgePos s' + 5 * bridgeDirection s')
    by (rewrite Hp, Hd; reflexivity).
  rewrite !bridgeInterval_next. split; [exact Hn|].
  destruct (Qlt_le_dec (bridgePos s + 5 * bridgeDirection s) B) as [Hlt | Hge].
  - destruct (Qlt_le_dec 0 (bridgePos s + 5 * bridgeDirection s)) as [Hgt | Hle].
    + rewrite !bridgeInterval_keep by lra. exact Hd.
    + rewrite !bridgeInterval_flip by lra. now rewrite Hd.
  - rewrite !bridgeInterval_flip by lra. now rewrite Hd.
Qed.

Lemma ticks_congr (n : nat) (s s' : State) :
  bridgePos s == bridgePos s' -> bridgeDirection s = bridgeDirection s' ->
  bridgePos (ticks B n s) == bridgePos (ticks B n s') /\
  bridgeDirection (ticks B n s) = bridgeDirection (ticks B n s').
Proof.
  intros Hp Hd. induction n as [|n [IHp IHd]].
  - now split.
  - rewrite !ticks_succ. now apply bridgeInterval_congr.
Qed.

Lemma ticks_add (n m : nat) (s : State) :
  ticks B (n + m) s = ticks B n (ticks B m s).
Proof. unfold ticks. apply Nat.iter_add. Qed.

Variable K : nat.
Hypothesis K_pos : (1 <= K)%nat.
Hypothesis K_lo : inject_Z (5 * (Z.of_nat K - 1)) < B.
Hypothesis K_hi : B <= inject_Z (5 * Z.of_nat K).

Lemma under_bound (n : nat) : (n < K)%nat -> inject_Z (5 * Z.of_nat n) < B.
Proof.
  intros Hn. apply Qle_lt_trans with (inject_Z (5 * (Z.of_nat K - 1))); [|exact K_lo].
  rewrite <- Zle_Qle. lia.
Qed.

(** The tick that reaches the bound turns the ball. *)
Lemma ticks_peak :
  bridgePos (ticks B K mount) == inject_Z (5 * Z.of_nat K) /\
  bridgeDirection (ticks B K mount) = -1.
Proof.
  set (k := (K - 1)%nat).
  replace (ticks B K mount) with (ticks B (S k) mount) by (f_equal; lia).
  destruct (ticks_rising B k) as [Hp Hd]; [apply under_bound; lia|].
  assert (Hnext : bridgePos (ticks B k mount) + 5 * bridgeDirection (ticks B k mount)
                  == inject_Z (5 * Z.of_nat K)).
  { rewrite Hp, Hd. replace (Z.of_nat K) with (Z.of_nat k + 1)%Z by lia.
    rewrite inject_Z_5_succ. ring. }
  rewrite ticks_succ, bridgeInterval_next, bridgeInterval_flip; [|left; rewrite Hnext; exact K_hi].
  split; [exact Hnext | now rewrite Hd].
Qed.

(** From the peak the ball comes down by 5 a tick. *)
Lemma ticks_falling (j : nat) :
  (j < K)%nat ->
  bridgePos (ticks B (j + K) mount) == inject_Z (5 * (Z.of_nat K - Z.of_nat j)) /\
  bridgeDirection (ticks B (j + K) mount) = -1.
Proof.
  induction j as [|j IH]; intros Hj.
  - cbn [Nat.add]. destruct ticks_peak as [Hp Hd].
    split; [|exact Hd]. rewrite Hp. now rewrite Z.sub_0_r.
  - destruct IH as [Hp Hd]; [lia|].
    assert (Hnext : bridgePos (ticks B (j + K) mount)
                    + 5 * bridgeDirection (ticks B (j + K) mount)
                    == inject_Z (5 * (Z.of_nat K - Z.of_nat (S j)))).
    { rewrite Hp, Hd.
      replace (Z.of_nat K - Z.of_nat (S j))%Z with (Z.of_nat K - Z.of_nat j - 1)%Z by lia.
      rewrite inject_Z_5_pred. ring. }
    assert (Hpos : 0 < inject_Z (5 * (Z.of_nat K - Z.of_nat (S j)))).
    { change 0 with (inject_Z 0). rewrite <- Zlt_Qlt. lia. }
    assert (Hunder : inject_Z (5 * (Z.of_nat K - Z.of_nat (S j))) < B).
    { apply Qle_lt_trans with (inject_Z (5 * (Z.of_nat K - 1))); [|exact K_lo].
      rewrite <- Zle_Qle. lia. }
    change (S j + K)%nat with (S (j + K)).
    rewrite ticks_succ, bridgeInterval_next, bridgeInterval_keep; [|rewrite Hnext; lra].
    split; [exact Hnext | exact Hd].
Qed.

(** The tick that reaches 0 turns the ball again: it is back where it began. *)
Lemma ticks_bottom :
  bridgePos (ticks B (K + K) mount) == 0 /\
  bridgeDirection (ticks B (K + K) mount) = 1.
Proof.
  set (k := (K - 1)%nat).
  destruct (ticks_falling k) as [Hp Hd]; [lia|].
  assert (Hnext : bridgePos (ticks B (k + K) mount)
                  + 5 * bridgeDirection (ticks B (k + K) mount) == 0).
  { rewrite Hp, Hd. replace (Z.of_nat K - Z.of_nat k)%Z with 1%Z by lia.
    reflexivity. }
  replace (K + K)%nat with (S (k + K)) by lia.
  rewrite ticks_succ, bridgeInterval_next, bridgeInterval_flip; [|right; rewrite Hnext; lra].
  split; [exact Hnext | now rewrite Hd].
Qed.

Lemma ticks_periodic (n : nat) :
  bridgePos (ticks B (n + (K + K)) mount) == bridgePos (ticks B n mount) /\
  bridgeDirection (ticks B (n + (K + K)) mount) = bridgeDirection (ticks B n mount).
Proof.
  rewrite ticks_add. destruct ticks_bottom as [Hp Hd].
  now apply ticks_congr.
Qed.

End TickerPeriod.

Lemma steps_to_bound (B : Q) :
  0 < B ->
  (1 <= Z.to_nat (Qceiling (B / 5)))%nat /\
  inject_Z (5 * (Z.of_nat (Z.to_nat (Qceiling (B / 5))) - 1)) < B /\
  B <= inject_Z (5 * Z.of_nat (Z.to_nat (Qceiling (B / 5)))).
Proof.
  intros HB.
  pose proof (Qle_ceiling (B / 5)) as Hup.
  pose proof (Qceiling_lt (B / 5)) as Hdown.
  set (c := Qceiling (B / 5)) in *.
  assert (Hdiv : B == 5 * (B / 5)) by (field).
  assert (Hc : (1 <= c)%Z).
  { assert (H0 : inject_Z 0 < inject_Z c) by (change (inject_Z 0) with 0; lra).
    rewrite <- Zlt_Qlt in H0. lia. }
  assert (Hpred : inject_Z (c - 1) == inject_Z c - 1).
  { unfold Z.sub. rewrite inject_Z_plus. reflexivity. }
  rewrite Hpred in Hdown.
  rewrite Z2Nat.id by lia.
  split; [lia|].
  rewrite inject_Z_5_pred, inject_Z_mult.
  change (inject_Z 5) with 5.
  split; lra.
Qed.

(** X2: with a positive bound [B] the ball of the ticker moves in a triangle
    wave.  With [K] the number of steps of 5 that reach the bound (the ceiling
    of [B / 5]): for [K] ticks it rises by 5 a tick, the tick number [K] puts
    it at [5 * K], at or past the bound by less than 5, and turns it; it then
    comes down by 5 a tick, the tick number [2 * K] puts it on 0 and turns it
    again; and the whole motion repeats every [2 * K] ticks. *)
Theorem ticks_triangle_wave (B : Q) :
  0 < B ->
  let K := Z.to_nat (Qceiling (B / 5)) in
  let after n := AntigravityScreen.ticks B n AntigravityScreen.mount in
  (1 <= K)%nat /\
  B <= inject_Z (5 * Z.of_nat K) /\ inject_Z (5 * Z.of_nat K) < B + 5 /\
  (forall n, (n < K)%nat ->
     AntigravityScreen.bridgePos (after n) == inject_Z (5 * Z.of_nat n) /\
     AntigravityScreen.bridgeDirection (after n) = 1) /\
  (forall j, (j < K)%nat ->
     AntigravityScreen.bridgePos (after (j + K)%nat)
       == inject_Z (5 * (Z.of_nat K - Z.of_nat j)) /\
     AntigravityScreen.bridgeDirection (after (j + K)%nat) = -1) /\
  AntigravityScreen.bridgePos (after (K + K)%nat) == 0 /\
  AntigravityScreen.bridgeDirection (after (K + K)%nat) = 1 /\
  (forall n,
     AntigravityScreen.bridgePos (after (n + (K + K))%nat)
       == AntigravityScreen.bridgePos (after n) /\
     AntigravityScreen.bridgeDirection (after (n + (K + K))%nat)
       = AntigravityScreen.bridgeDirection (after n)).
Proof.
  intros HB K after.
  destruct (steps_to_bound B HB) as (HK & Hlo & Hhi). fold K in HK, Hlo, Hhi.
  split; [exact HK|]. split; [exact Hhi|].
  split.
  { rewrite inject_Z_5_pred in Hlo. lra. }
  split.
  { intros n Hn. apply ticks_rising. apply (under_bound B K); assumption. }
  split.
  { intros j Hj. now apply ticks_falling. }
  destruct (ticks_bottom B K HK Hlo Hhi) as [Hp Hd].
  split; [exact Hp|]. split; [exact Hd|].
  intros n. now apply ticks_periodic.
Qed.

Lemma ticks_triangle_wave_witness :
  0 < 252 /\
  AntigravityScreen.bridgePos (AntigravityScreen.ticks 252 (51 + 51) AntigravityScreen.mount) == 0.
Proof.
  assert (H : 0 < 252) by reflexivity.
  split; [exact H|].
  exact (proj1 (proj2 (proj2 (proj2 (proj2 (proj2 (ticks_triangle_wave 252 H))))))).
Defined.

Section TickerStuck.

Import AntigravityScreen.

Variable B : Q.

(** Two ticks above the bound: both turn the ball, and it is back where it
    was. *)
Lemma two_ticks_above (s : State) :
  bridgeDirection s = 1 \/ bridgeDirection s = -1 ->
  B <= bridgePos s -> B <= bridgePos s + 5 * bridgeDirection s ->
  (bridgePos (bridgeInterval B s) == bridgePos s + 5 * bridgeDirection s /\
   bridgeDirection (bridgeInterval B s) = bridgeDirection s * -1) /\
  (bridgePos (bridgeInterval B (bridgeInterval B s)) == bridgePos s /\
   bridgeDirection (bridgeInterval B (bridgeInterval B s)) = bridgeDirection s).
Proof.
  intros Hd Hp Hn.
  assert (H1p : bridgePos (bridgeInterval B s) = bridgePos s + 5 * bridgeDirection s)
    by apply bridgeInterval_next.
  assert (H1d : bridgeDirection (bridgeInterval B s) = bridgeDirection s * -1)
    by (apply bridgeInterval_flip; now left).
  assert (Hback : bridgePos (bridgeInterval B s) + 5 * bridgeDirection (bridgeInterval B s)
                  == bridgePos s) by (rewrite H1p, H1d; ring).
  split; [split; [now rewrite H1p | exact H1d]|].
  rewrite (bridgeInterval_next B (bridgeInterval B s)),
    (bridgeInterval_flip B (bridgeInterval B s)); [|left; rewrite Hback; exact Hp].
  split; [exact Hback|].
  rewrite H1d. destruct Hd as [-> | ->]; reflexivity.
Qed.

Lemma ticks_above (s : State) (n : nat) :
  bridgeDirection s = 1 \/ bridgeDirection s = -1 ->
  B <= bridgePos s -> B <= bridgePos s + 5 * bridgeDirection s ->
  (bridgePos (ticks B (2 * n) s) == bridgePos s /\
   bridgeDirection (ticks B (2 * n) s) = bridgeDirection s) /\
  (bridgePos (ticks B (S (2 * n)) s) == bridgePos s + 5 * bridgeDirection s /\
   bridgeDirection (ticks B (S (2 * n)) s) = bridgeDirection s * -1).
Proof.
  intros Hd Hp Hn.
  assert (Heven : bridgePos (ticks B (2 * n) s) == bridgePos s /\
                  bridgeDirection (ticks B (2 * n) s) = bridgeDirection s).
  { induction n as [|n [IHp IHd]].
    - now split.
    - replace (2 * S n)%nat with (S (S (2 * n))) by lia.
      rewrite !ticks_succ.
      destruct (two_ticks_above (ticks B (2 * n) s)) as [_ [Hp2 Hd2]].
      + now rewrite IHd.
      + now rewrite IHp.
      + now rewrite IHp, IHd.
      + split; [now rewrite Hp2 | now rewrite Hd2]. }
  split; [exact Heven|].
  destruct Heven as [IHp IHd].
  rewrite ticks_succ.
  destruct (two_ticks_above (ticks B (2 * n) s)) as [[Hp1 Hd1] _].
  - now rewrite IHd.
  - now rewrite IHp.
  - now rewrite IHp, IHd.
  - split; [now rewrite Hp1, IHp, IHd | now rewrite Hd1, IHd].
Qed.

End TickerStuck.

(** X3: the ticker does not recover from a bound that has come down under the
    ball (the interval is set again with the new bound when the window
    changes, and the position is kept).  If the ball is at or past the bound
    and its next position is too, every tick turns it: it goes back and forth
    between its position and the next one, 5 apart, for ever, and never comes
    back under the bound. *)
Theorem ticks_stuck_above_bound (B : Q) (s : AntigravityScreen.State) (n : nat) :
  AntigravityScreen.bridgeDirection s = 1 \/ AntigravityScreen.bridgeDirection s = -1 ->
  B <= AntigravityScreen.bridgePos s ->
  B <= AntigravityScreen.bridgePos s + 5 * AntigravityScreen.bridgeDirection s ->
  B <= AntigravityScreen.bridgePos (AntigravityScreen.ticks B n s) /\
  AntigravityScreen.bridgePos (AntigravityScreen.ticks B (2 * n) s)
    == AntigravityScreen.bridgePos s /\
  AntigravityScreen.bridgeDirection (AntigravityScreen.ticks B (2 * n) s)
    = AntigravityScreen.bridgeDirection s /\
  AntigravityScreen.bridgePos (AntigravityScreen.ticks B (S (2 * n)) s)
    == AntigravityScreen.bridgePos s + 5 * AntigravityScreen.bridgeDirection s /\
  AntigravityScreen.bridgeDirection (AntigravityScreen.ticks B (S (2 * n)) s)
    = AntigravityScreen.bridgeDirection s * -1.
Proof.
  intros Hd Hp Hn.
  split.
  - destruct (Nat.Even_or_Odd n) as [[m ->] | [m ->]].
    + destruct (ticks_above B s m Hd Hp Hn) as [[Hp2 _] _]. now rewrite Hp2.
    + replace (2 * m + 1)%nat with (S (2 * m)) by lia.
      destruct (ticks_above B s m Hd Hp Hn) as [_ [Hp1 _]]. now rewrite Hp1.
  - destruct (ticks_above B s n Hd Hp Hn) as [[Hp2 Hd2] [Hp1 Hd1]].
    repeat split; assumption.
Qed.

(** The window goes from a height of 800 to a height of 400 after 40 ticks:
    the ball, at 200, is above the new bound of 140 and stays there. *)
Lemma ticks_stuck_above_bound_witness :
  let s := AntigravityScreen.ticks (AntigravityScreen.BOUNCE_HEIGHT 800) 40
             AntigravityScreen.mount in
  let B := AntigravityScreen.BOUNCE_HEIGHT 400 in
  (AntigravityScreen.bridgeDirection s = 1 \/ AntigravityScreen.bridgeDirection s = -1) /\
  B <= AntigravityScreen.bridgePos s /\
  B <= AntigravityScreen.bridgePos s + 5 * AntigravityScreen.bridgeDirection s /\
  B <= AntigravityScreen.bridgePos (AntigravityScreen.ticks B 1000 s).
Proof.
  intros s B.
  assert (Hd : AntigravityScreen.bridgeDirection s = 1 \/ AntigravityScreen.bridgeDirection s = -1)
    by (left; vm_compute; reflexivity).
  assert (Hp : B <= AntigravityScreen.bridgePos s) by (vm_compute; discriminate).
  assert (Hn : B <= AntigravityScreen.bridgePos s + 5 * AntigravityScreen.bridgeDirection s)
    by (vm_compute; discriminate).
  split; [exact Hd|]. split; [exact Hp|]. split; [exact Hn|].
  exact (proj1 (ticks_stuck_above_bound B s 1000 Hd Hp Hn)).
Defined.

(** X4: the bound the screen derives is positive whatever the height of the
    window, so the guard of the effect that starts the rocket never holds the
    animation back, and the ball of the ticker stays between 0 and less than a
    step past the bound on every window. *)
Theorem BOUNCE_HEIGHT_positive (SCREEN_HEIGHT : Q) :
  0 < AntigravityScreen.BOUNCE_HEIGHT SCREEN_HEIGHT /\
  AntigravityScreenEffects.rocketEffect (AntigravityScreen.BOUNCE_HEIGHT SCREEN_HEIGHT) =
    Some (AntigravityScreenEffects.withRepeat
            (Reanimated.withTiming (AntigravityScreen.BOUNCE_HEIGHT SCREEN_HEIGHT)
               {| Reanimated.duration := 1000;
                  Reanimated.easing := Reanimated.Easing_inOut Reanimated.Easing_quad |}
               None)
            (-1) true) /\
  (forall N,
     0 <= AntigravityScreen.bridgePos
            (AntigravityScreen.ticks (AntigravityScreen.BOUNCE_HEIGHT SCREEN_HEIGHT) N
               AntigravityScreen.mount) /\
     AntigravityScreen.bridgePos
       (AntigravityScreen.ticks (AntigravityScreen.BOUNCE_HEIGHT SCREEN_HEIGHT) N
          AntigravityScreen.mount)
     < AntigravityScreen.BOUNCE_HEIGHT SCREEN_HEIGHT + 5).
Proof.
  assert (Hpos : 0 < AntigravityScreen.BOUNCE_HEIGHT SCREEN_HEIGHT).
  { unfold AntigravityScreen.BOUNCE_HEIGHT.
    destruct (gt_spec SCREEN_HEIGHT 0) as [H | H]; [lra | reflexivity]. }
  split; [exact Hpos|]. split.
  - unfold AntigravityScreenEffects.rocketEffect.
    destruct (gt_spec (AntigravityScreen.BOUNCE_HEIGHT SCREEN_HEIGHT) 0) as [_ | H];
      [reflexivity | contradiction].
  - intros N.
    destruct (inRange_ticks _ N Hpos) as [[(_ & Hlo & Hhi) | (_ & Hlo & Hhi)] _]; split; lra.
Qed.

(** ** The mirror of the counter *)

Section Mirror.

Import Reanimated Worklets WorkerColumn.

Variable bounceHeight : Q.

Lemma step_displayCount (e : Event) (s : State) :
  (displayCount s <= getDirty (bgCount s))%Z ->
  let s1 := fst (step bounceHeight e s) in
  let w1 := snd (step bounceHeight e s) in
  (displayCount s1 <= getDirty (bgCount s1))%Z /\
  (w1 = [] /\ displayCount s1 = displayCount s
   \/ (displayCount s < displayCount s1)%Z /\
      w1 = [Write_displayCount (displayCount s1); Write_ballY (bounce bounceHeight)]).
Proof.
  intros Hle. destruct e as [|now]; cbn [step fst snd].
  - rewrite workerInterval_bgCount. cbn [workerInterval displayCount].
    split; [lia | now left].
  - rewrite frame_bgCount, frame_synced, frame_snd.
    split; [lia|].
    destruct (Z.eq_dec (getDirty (bgCount s)) (displayCount s)) as [E | E].
    + left. now rewrite frameCallback_same.
    + right. rewrite frameCallback_changed by assumption. split; [lia | reflexivity].
Qed.

Lemma run_displayed (events : list Event) (s : State) :
  (displayCount s <= getDirty (bgCount s))%Z ->
  let s' := fst (run bounceHeight events s) in
  let w := snd (run bounceHeight events s) in
  (displayCount s <= displayCount s' <= getDirty (bgCount s'))%Z /\
  Forall (fun v => (displayCount s < v <= displayCount s')%Z) (displayed w) /\
  StronglySorted Z.lt (displayed w) /\
  bounces w = List.length (displayed w).
Proof.
  revert s. induction events as [|e events IH]; intros s Hle; cbv zeta.
  - cbn. repeat split; [lia | lia | constructor | constructor].
  - rewrite run_cons. cbn [fst snd].
    destruct (step_displayCount e s Hle) as [Hle1 Hstep].
    destruct (IH _ Hle1) as (Hmono & Hall & Hsorted & Hcount).
    rewrite displayed_app, bounces_app.
    destruct Hstep as [[-> Hsame] | [Hup ->]].
    + cbn [displayed flat_map app bounces filter List.length Nat.add].
      rewrite Hsame in *. repeat split; [lia | lia | exact Hall | exact Hsorted | exact Hcount].
    + cbn [displayed flat_map app bounces filter isBounce List.length Nat.add].
      fold (displayed (snd (run bounceHeight events (fst (step bounceHeight e s))))).
      fold (bounces (snd (run bounceHeight events (fst (step bounceHeight e s))))).
      repeat split.
      * lia.
      * lia.
      * constructor; [lia|].
        eapply Forall_impl; [|exact Hall]. cbv beta. intros v Hv. lia.
      * constructor; [exact Hsorted|].
        eapply Forall_impl; [|exact Hall]. cbv beta. intros v Hv. lia.
      * now rewrite Hcount.
Qed.

End Mirror.

(** X5: over any sequence of firings and frames since the mount, the mirror
    [displayCount] is never ahead of the counter and never negative; the
    values the frame callback writes to it are positive and strictly
    increasing, so the label never shows a count twice or a smaller one; and
    each of these writes comes with exactly one bounce. *)
Theorem displayCount_trails_bgCount (bounceHeight : Q) (events : list WorkerColumn.Event) :
  let s := fst (WorkerColumn.run bounceHeight events WorkerColumn.mount) in
  let writes := snd (WorkerColumn.run bounceHeight events WorkerColumn.mount) in
  (0 <= WorkerColumn.displayCount s <= Worklets.getDirty (WorkerColumn.bgCount s))%Z /\
  Forall (fun v => (0 < v <= WorkerColumn.displayCount s)%Z) (WorkerColumn.displayed writes) /\
  StronglySorted Z.lt (WorkerColumn.displayed writes) /\
  WorkerColumn.bounces writes = List.length (WorkerColumn.displayed writes).
Proof.
  intros s writes. subst s writes.
  destruct (run_displayed bounceHeight events WorkerColumn.mount) as (H1 & H2 & H3 & H4).
  - cbn. lia.
  - change (WorkerColumn.displayCount WorkerColumn.mount) with 0%Z in H1, H2.
    split; [lia|]. split; [exact H2|]. split; assumption.
Qed.

(** ** The ball of the worker column stays on its track *)

Section Track.

Import Reanimated Worklets WorkerColumn WorkerColumnView.

Lemma prod_range (a b : Q) :
  0 <= a -> a <= 1 -> 0 <= b -> b <= 1 -> 0 <= a * b /\ a * b <= 1.
Proof.
  intros Ha Ha' Hb Hb'.
  assert (0 <= a * b) by (apply Qmult_le_0_compat; assumption).
  assert (0 <= (1 - a) * b) by (apply Qmult_le_0_compat; lra).
  split; lra.
Qed.

Lemma half (x : Q) : x / 2 == x * (1 # 2).
Proof. field. Qed.

(** The easing takes the progress of a running animation into [0, 1]. *)
Lemma Easing_inOut_quad_range (t : Q) :
  0 <= t -> t < 1 ->
  0 <= Easing_inOut Easing_quad t /\ Easing_inOut Easing_quad t <= 1.
Proof.
  intros Hlo Hhi. unfold Easing_inOut, Easing_quad.
  destruct (lt_spec t (1 # 2)) as [Hlt | Hge]; rewrite half.
  - destruct (prod_range (t * 2) (t * 2)); lra.
  - assert (Hge' : (1 # 2) <= t) by lra.
    destruct (prod_range ((1 - t) * 2) ((1 - t) * 2)); lra.
Qed.

Lemma between (v to e bound : Q) :
  0 <= v -> v <= bound -> 0 <= to -> to <= bound -> 0 <= e -> e <= 1 ->
  0 <= v + (to - v) * e /\ v + (to - v) * e <= bound.
Proof.
  intros.
  assert (0 <= v * (1 - e)) by (apply Qmult_le_0_compat; lra).
  assert (0 <= to * e) by (apply Qmult_le_0_compat; lra).
  assert (0 <= (bound - v) * (1 - e)) by (apply Qmult_le_0_compat; lra).
  assert (0 <= (bound - to) * e) by (apply Qmult_le_0_compat; lra).
  split; lra.
Qed.

Variable bounceHeight : Q.
Hypothesis bounceHeight_nonneg : 0 <= bounceHeight.

Variables (now : Q) (later : list Q).
Hypothesis later_sorted : Forall (Qle now) later.

Lemma steadyOption_tail (o : option Running) :
  steadyOption bounceHeight (now :: later) o -> steadyOption bounceHeight later o.
Proof.
  destruct o as [r|]; [|trivial]. intros (Hleg & Hstart & Htimes).
  split; [exact Hleg|]. split; [exact Hstart|]. now inversion Htimes.
Qed.

Lemma steady_tail (sv : SharedValue) :
  steady bounceHeight (now :: later) sv -> steady bounceHeight later sv.
Proof.
  intros (Hval & Hanim & Hcanc). split; [exact Hval|]. split; [|exact Hcanc].
  now apply steadyOption_tail.
Qed.

(** A step of a timing animation that is not over stays between the value it
    started from and its target. *)
Lemma step_onTrack (r : Running) (toValue : Q) :
  steadyRunning bounceHeight (now :: later) r ->
  onTrack bounceHeight toValue ->
  ~ 500 <= now - startTime r ->
  onTrack bounceHeight
    (startValue r
     + (toValue - startValue r) * Easing_inOut Easing_quad ((now - startTime r) / 500)).
Proof.
  intros (_ & [Hs0 Hs1] & Htimes) [Ht0 Ht1] Hrunning.
  inversion Htimes as [|t ts Hnow _]; subst.
  assert (Hprogress : 0 <= (now - startTime r) / 500 /\ (now - startTime r) / 500 < 1).
  { assert (E : (now - startTime r) / 500 == (now - startTime r) * (1 # 500)) by field.
    rewrite E. split; lra. }
  destruct Hprogress as [Hp0 Hp1].
  destruct (Easing_inOut_quad_range _ Hp0 Hp1) as [He0 He1].
  apply between; assumption.
Qed.

Lemma onStart_steady (a : Animation) (v : Q) (previous : option Running) :
  leg bounceHeight a -> onTrack bounceHeight v ->
  steadyOption bounceHeight (now :: later) previous ->
  steadyRunning bounceHeight (now :: later) (onStart a v now previous).
Proof.
  intros Hleg Hv Hprev. unfold onStart.
  assert (Hfresh : steadyRunning bounceHeight (now :: later)
                     {| program := a; startTime := now; startValue := v |}).
  { split; [exact Hleg|]. split; [exact Hv|].
    constructor; [apply Qle_refl | exact later_sorted]. }
  destruct previous as [p|]; [|exact Hfresh].
  destruct (Qeq_bool (toValueOf (program p)) (toValueOf a) && negb (Qeq_bool (startTime p) 0));
    [|exact Hfresh].
  destruct Hprev as (_ & Hstart & Htimes).
  split; [exact Hleg|]. split; [exact Hstart | exact Htimes].
Qed.

(** Starting the way back leaves [ballY] on its track. *)
Lemma start_bounceBack (previous : option Running) (v : Q) :
  onTrack bounceHeight v ->
  steadyOption bounceHeight (now :: later) previous ->
  onTrack bounceHeight (fst (start bounceBack now previous v)) /\
  steadyOption bounceHeight (now :: later) (snd (start bounceBack now previous v)).
Proof.
  intros Hv Hprev. unfold bounceBack. cbn [start duration easing bounceConfig].
  destruct (Qeq_bool v 0); [now split|].
  fold bounceBack.
  pose proof (onStart_steady bounceBack v previous (or_intror eq_refl) Hv Hprev) as Hr.
  destruct (ge_spec (now - startTime (onStart bounceBack v now previous)) 500)
    as [Hdone | Hrunning].
  - split; [|exact I]. split; [apply Qle_refl | exact bounceHeight_nonneg].
  - split; [|exact Hr]. cbn [fst].
    apply step_onTrack; [exact Hr | | exact Hrunning].
    split; [apply Qle_refl | exact bounceHeight_nonneg].
Qed.

(** So does starting the bounce. *)
Lemma start_bounce (previous : option Running) (v : Q) :
  onTrack bounceHeight v ->
  steadyOption bounceHeight (now :: later) previous ->
  onTrack bounceHeight (fst (start (bounce bounceHeight) now previous v)) /\
  steadyOption bounceHeight (now :: later) (snd (start (bounce bounceHeight) now previous v)).
Proof.
  intros Hv Hprev. unfold bounce. cbn [start duration easing bounceConfig].
  fold (bounce bounceHeight).
  assert (Htop : onTrack bounceHeight bounceHeight)
    by (split; [exact bounceHeight_nonneg | apply Qle_refl]).
  destruct (Qeq_bool v bounceHeight).
  - now apply start_bounceBack.
  - pose proof (onStart_steady (bounce bounceHeight) v previous (or_introl eq_refl) Hv Hprev)
      as Hr.
    destruct (ge_spec (now - startTime (onStart (bounce bounceHeight) v now previous)) 500)
      as [Hdone | Hrunning].
    + now apply start_bounceBack.
    + split; [|exact Hr]. cbn [fst].
      now apply step_onTrack.
Qed.

Lemma start_leg (a : Animation) (previous : option Running) (v : Q) :
  leg bounceHeight a ->
  onTrack bounceHeight v ->
  steadyOption bounceHeight (now :: later) previous ->
  onTrack bounceHeight (fst (start a now previous v)) /\
  steadyOption bounceHeight (now :: later) (snd (start a now previous v)).
Proof.
  intros [-> | ->]; [apply start_bounce | apply start_bounceBack].
Qed.

Lemma steady_set_animation (a : Animation) (sv : SharedValue) :
  leg bounceHeight a ->
  steady bounceHeight (now :: later) sv ->
  steady bounceHeight (now :: later) (set_animation a now sv).
Proof.
  intros Hleg (Hval & Hanim & Hcanc). unfold set_animation.
  destruct (start_leg a (animation sv) (value sv) Hleg Hval Hanim) as [Hv Hlive].
  destruct (start a now (animation sv) (value sv)) as [v live].
  split; [exact Hv|]. split; [exact Hlive|]. cbn [cancelled].
  apply Forall_app. split; [exact Hcanc|].
  destruct (animation sv) as [p|]; [|constructor].
  constructor; [apply Hanim | constructor].
Qed.

(** The callback of a leg of the bounce, when it has one, is the way back. *)
Lemma callbackOf_leg (a next : Animation) :
  leg bounceHeight a -> callbackOf a = Some next -> next = bounceBack.
Proof.
  intros [-> | ->]; cbn; congruence.
Qed.

Lemma steady_cancelledStep (c : Running) (waiting : option Running) (sv : SharedValue) :
  leg bounceHeight (program c) ->
  steadyOption bounceHeight (now :: later) waiting ->
  steady bounceHeight (now :: later) sv ->
  steadyOption bounceHeight (now :: later) (fst (cancelledStep c now (waiting, sv))) /\
  steady bounceHeight (now :: later) (snd (cancelledStep c now (waiting, sv))).
Proof.
  intros Hc Hwaiting Hsv. unfold cancelledStep.
  destruct (callbackOf (program c)) as [next|] eqn:Hcb; [|now split].
  apply (callbackOf_leg _ _ Hc) in Hcb. subst next.
  destruct waiting as [w|].
  - destruct Hsv as (Hval & _ & Hcanc).
    destruct (start_bounceBack (Some w) (value sv) Hval Hwaiting) as [Hv Hlive].
    destruct (start bounceBack now (Some w) (value sv)) as [v live].
    split; [exact I|]. split; [exact Hv|]. split; [exact Hlive | exact Hcanc].
  - split; [exact I|]. apply steady_set_animation; [now right | exact Hsv].
Qed.

Lemma steady_cancelled (cs : list Running) (waiting : option Running) (sv : SharedValue) :
  Forall (fun c => leg bounceHeight (program c)) cs ->
  steadyOption bounceHeight (now :: later) waiting ->
  steady bounceHeight (now :: later) sv ->
  steadyOption bounceHeight (now :: later)
    (fst (fold_left (fun st c => cancelledStep c now st) cs (waiting, sv))) /\
  steady bounceHeight (now :: later)
    (snd (fold_left (fun st c => cancelledStep c now st) cs (waiting, sv))).
Proof.
  intros Hcs. revert waiting sv.
  induction Hcs as [|c cs Hc _ IH]; intros waiting sv Hwaiting Hsv.
  - now split.
  - cbn [fold_left].
    destruct (steady_cancelledStep c waiting sv Hc Hwaiting Hsv) as [Hw' Hsv'].
    destruct (cancelledStep c now (waiting, sv)) as [waiting' sv'].
    now apply IH.
Qed.

Lemma steady_onFrame (sv : SharedValue) :
  steady bounceHeight (now :: later) sv ->
  steady bounceHeight (now :: later) (onFrame now sv).
Proof.
  intros (Hval & Hanim & Hcanc). unfold onFrame.
  assert (Hst0 : steady bounceHeight (now :: later)
                   {| value := value sv; animation := None; cancelled := [] |}).
  { split; [exact Hval|]. split; [exact I | constructor]. }
  destruct (steady_cancelled (cancelled sv) (animation sv) _ Hcanc Hanim Hst0) as [Hw Hst].
  destruct (fold_left (fun st c => cancelledStep c now st) (cancelled sv)
              (animation sv, {| value := value sv; animation := None; cancelled := [] |}))
    as [waiting st].
  cbn [fst snd] in Hw, Hst.
  destruct (animation sv) as [r|]; [|exact Hst].
  destruct waiting as [w|].
  - destruct Hst as (_ & _ & Hcanc').
    assert (Hto : exists to cb,
               program r = withTiming to bounceConfig cb /\ onTrack bounceHeight to /\
               (cb = None \/ cb = Some bounceBack)).
    { destruct Hanim as ([Hp | Hp] & _); rewrite Hp.
      - exists bounceHeight, (Some bounceBack).
        split; [reflexivity|]. split; [|now right].
        split; [exact bounceHeight_nonneg | apply Qle_refl].
      - exists 0, None. split; [reflexivity|]. split; [|now left].
        split; [apply Qle_refl | exact bounceHeight_nonneg]. }
    destruct Hto as (to & cb & -> & Hto & Hcb).
    cbn [duration easing bounceConfig].
    destruct (ge_spec (now - startTime r) 500) as [Hdone | Hrunning].
    + assert (Hfinished : steady bounceHeight (now :: later)
                {| value := to; animation := None; cancelled := cancelled st |}).
      { split; [exact Hto|]. split; [exact I | exact Hcanc']. }
      destruct Hcb as [-> | ->]; [exact Hfinished|].
      apply steady_set_animation; [now right | exact Hfinished].
    + split; [|split; [exact Hanim | exact Hcanc']]. cbn [value].
      now apply step_onTrack.
  - apply steady_cancelledStep; [apply Hanim | exact I | exact Hst].
Qed.

Lemma steady_frame (s : State) :
  steady bounceHeight (now :: later) (ballY s) ->
  steady bounceHeight later (ballY (fst (frame bounceHeight now s))).
Proof.
  intros Hs. apply steady_tail. rewrite frame_eq.
  assert (Hanimated : steady bounceHeight (now :: later) (ballY (animate now s)))
    by now apply steady_onFrame.
  destruct (Z.eq_dec (getDirty (bgCount (animate now s))) (displayCount (animate now s)))
    as [E | E].
  - now rewrite frameCallback_same.
  - rewrite frameCallback_changed by assumption. cbn [fst ballY].
    apply steady_set_animation; [now left | exact Hanimated].
Qed.

End Track.

Section TrackRun.

Import Reanimated Worklets WorkerColumn WorkerColumnView.

Variable bounceHeight : Q.
Hypothesis bounceHeight_nonneg : 0 <= bounceHeight.

Lemma steady_run (events : list Event) (s : State) :
  StronglySorted Qle (timestamps events) ->
  steady bounceHeight (timestamps events) (ballY s) ->
  steady bounceHeight [] (ballY (fst (run bounceHeight events s))).
Proof.
  revert s. induction events as [|e events IH]; intros s Hsorted Hs.
  - exact Hs.
  - rewrite run_cons. cbn [fst]. destruct e as [|now].
    + apply IH; [exact Hsorted | exact Hs].
    + cbn [timestamps flat_map app] in Hsorted, Hs.
      fold (timestamps events) in Hsorted, Hs.
      inversion Hsorted as [|t ts Hts Hall]; subst.
      apply IH; [exact Hts|]. cbn [step].
      now apply (steady_frame bounceHeight bounceHeight_nonneg now (timestamps events)).
Qed.

End TrackRun.

(** X6: when the bound is not negative and the timestamps of the frames do
    not go back, the [translateY] of the ball of the worker column is between
    0 and the bound after any sequence of firings and frames since the mount,
    also when a firing comes in the middle of a bounce. *)
Theorem ballY_stays_on_track (bounceHeight : Q) (events : list WorkerColumn.Event) :
  0 <= bounceHeight ->
  StronglySorted Qle (WorkerColumnView.timestamps events) ->
  0 <= WorkerColumnView.ballStyle (fst (WorkerColumn.run bounceHeight events WorkerColumn.mount)) /\
  WorkerColumnView.ballStyle (fst (WorkerColumn.run bounceHeight events WorkerColumn.mount))
    <= bounceHeight.
Proof.
  intros Hb Hsorted.
  destruct (steady_run bounceHeight Hb events WorkerColumn.mount Hsorted) as [Hval _].
  - split; [cbn; split; [discriminate | exact Hb]|]. split; [exact I | constructor].
  - exact Hval.
Qed.

Lemma ballY_stays_on_track_witness :
  let events := [WorkerColumn.WorkerFire; WorkerColumn.Frame 16; WorkerColumn.Frame 266;
                 WorkerColumn.WorkerFire; WorkerColumn.Frame 282; WorkerColumn.Frame 532] in
  0 <= 250 /\
  StronglySorted Qle (WorkerColumnView.timestamps events) /\
  WorkerColumnView.ballStyle (fst (WorkerColumn.run 250 events WorkerColumn.mount)) <= 250.
Proof.
  intros events.
  assert (Hb : 0 <= 250) by discriminate.
  assert (Hsorted : StronglySorted Qle (WorkerColumnView.timestamps events)).
  { cbn. repeat constructor; discriminate. }
  split; [exact Hb|]. split; [exact Hsorted|].
  exact (proj2 (ballY_stays_on_track 250 events Hb Hsorted)).
Defined.

(** ** The label of the worker column *)

Section Label.

Import Worklets WorkerColumn WorkerColumnView.

Lemma length_append (a b : string) :
  String.length (a ++ b) = (String.length a + String.length b)%nat.
Proof. induction a as [|c a IH]; cbn; [reflexivity | now rewrite IH]. Qed.

Lemma append_cancel_r (a b t : string) : (a ++ t = b ++ t)%string -> a = b.
Proof.
  revert b. induction a as [|c a IH]; intros [|d b] H.
  - reflexivity.
  - apply (f_equal String.length) in H. cbn in H. rewrite length_append in H. lia.
  - apply (f_equal String.length) in H. cbn in H. rewrite length_append in H. lia.
  - cbn in H. injection H as -> H. f_equal. now apply IH.
Qed.

Lemma to_int_proper (n : Z) :
  Z.to_int n <> Decimal.Pos Decimal.Nil /\ Z.to_int n <> Decimal.Neg Decimal.Nil.
Proof.
  destruct n as [|p|p]; cbn; split; try discriminate;
    intros H; injection H as H; now apply (Unsigned.to_uint_nonnil p).
Qed.

(** The digits of a number give the number back. *)
Lemma template_read (n : Z) :
  option_map Z.of_int (NilZero.int_of_string (template n)) = Some n.
Proof.
  unfold template. destruct (to_int_proper n) as [H1 H2].
  rewrite NilZero.isi by assumption. cbn. now rewrite DecimalZ.of_to.
Qed.

Lemma template_inj (n m : Z) : template n = template m -> n = m.
Proof.
  intros H. pose proof (template_read n) as Hn. rewrite H, template_read in Hn.
  now injection Hn.
Qed.

End Label.

(** X8: the label of the worker column.  At the mount its text is the default
    value, "0 runs"; two states have the same text only if their mirrors hold
    the same count; and after any firings and frames that end with a frame the
    text is the number of firings so far, in decimal, followed by " runs". *)
Theorem counterProps_shows_count :
  WorkerColumnView.text (WorkerColumnView.counterProps WorkerColumn.mount)
    = WorkerColumnView.defaultValue (WorkerColumnView.counterProps WorkerColumn.mount) /\
  (forall s s',
      WorkerColumnView.text (WorkerColumnView.counterProps s)
        = WorkerColumnView.text (WorkerColumnView.counterProps s') ->
      WorkerColumn.displayCount s = WorkerColumn.displayCount s') /\
  (forall bounceHeight events now,
      WorkerColumnView.text
        (WorkerColumnView.counterProps
           (fst (WorkerColumn.run bounceHeight (events ++ [WorkerColumn.Frame now])
                   WorkerColumn.mount)))
      = (WorkerColumnView.template (Z.of_nat (WorkerColumn.fires events)) ++ " runs")%string).
Proof.
  split; [reflexivity|]. split.
  - intros s s' H. cbn [WorkerColumnView.counterProps WorkerColumnView.text] in H.
    apply append_cancel_r in H. now apply template_inj.
  - intros bounceHeight events now.
    cbn [WorkerColumnView.counterProps WorkerColumnView.text].
    rewrite run_app. cbn [fst]. rewrite run_cons. cbn [WorkerColumn.step WorkerColumn.run fst].
    rewrite frame_synced, run_bgCount. reflexivity.
Qed.

Lemma counterProps_shows_count_witness :
  WorkerColumnView.text
    (WorkerColumnView.counterProps
       (fst (WorkerColumn.run 250
               ([WorkerColumn.WorkerFire; WorkerColumn.Frame 16; WorkerColumn.WorkerFire]
                ++ [WorkerColumn.Frame 32])
               WorkerColumn.mount)))
  = "2 runs"%string.
Proof.
  exact (proj2 (proj2 counterProps_shows_count) 250
           [WorkerColumn.WorkerFire; WorkerColumn.Frame 16; WorkerColumn.WorkerFire] 32).
Defined.

(** ** More on the busy loop and on pressing twice *)

Section BusyLoop.

Import AntigravityScreen.

Variable start : Z.

Lemma busyWait_skip (spun clock : list Z) :
  Forall (fun now => (now - start < 3000)%Z) spun ->
  busyWait start (spun ++ clock) = busyWait start clock.
Proof.
  induction 1 as [|now spun Hnow _ IH]; cbn [app busyWait].
  - reflexivity.
  - destruct (Z.ltb_spec (now - start) 3000); [exact IH | lia].
Qed.

Lemma busyWait_stops (finish : Z) (rest : list Z) :
  (3000 <= finish - start)%Z ->
  busyWait start (finish :: rest) = Some (finish, rest).
Proof.
  intros H. cbn [busyWait].
  destruct (Z.ltb_spec (finish - start) 3000); [lia | reflexivity].
Qed.

Lemma busyWait_none (clock : list Z) :
  busyWait start clock = None ->
  Forall (fun now => (now - start < 3000)%Z) clock.
Proof.
  induction clock as [|now later IH]; cbn [busyWait]; intros H.
  - constructor.
  - destruct (Z.ltb_spec (now - start) 3000); [|discriminate].
    constructor; [assumption | now apply IH].
Qed.

End BusyLoop.

(** X9: the busy loop returns on the first value of the clock that is 3000 ms
    or more after [start], whatever the values before it, even values that
    are before [start] (a clock that was set back): it returns [finish] and
    leaves [rest] unread exactly when the clock read is some values all less
    than 3000 ms after [start], then [finish], then [rest]; and it is still
    running after the last value exactly when all values are less than
    3000 ms after [start]. *)
Theorem busyWait_first_deadline (start : Z) (clock : list Z) :
  (forall finish rest,
      AntigravityScreen.busyWait start clock = Some (finish, rest) <->
      (3000 <= finish - start)%Z /\
      exists spun, clock = spun ++ finish :: rest /\
                   Forall (fun now => (now - start < 3000)%Z) spun) /\
  (AntigravityScreen.busyWait start clock = None <->
   Forall (fun now => (now - start < 3000)%Z) clock).
Proof.
  split.
  - intros finish rest. split.
    + apply busyWait_returns.
    + intros (Hfin & spun & -> & Hspun).
      rewrite busyWait_skip by exact Hspun. now apply busyWait_stops.
  - split; [apply busyWait_none | apply busyWait_spinning].
Qed.

Lemma busyWait_first_deadline_witness :
  AntigravityScreen.busyWait 1000 [1001; 990; 2500; 4000; 4001]%Z = Some (4000%Z, [4001%Z]).
Proof.
  apply (proj1 (busyWait_first_deadline 1000 [1001; 990; 2500; 4000; 4001]%Z)).
  split; [lia|].
  exists [1001; 990; 2500]%Z. split; [reflexivity|].
  repeat constructor.
Defined.

(** X10: a second press of the button before the timer of the first has run
    sets a second timer.  The first blocking function leaves the flag false,
    and the second one then blocks the thread for another 3000 ms or more with
    the flag false all along: the thread is blocked for 6000 ms or more in
    all, the flag shows it for the first block only, and the position of the
    ball is the one before the presses. *)
Theorem second_press_blocks_unflagged (s s3 s4 : AntigravityScreen.State)
    (setAt1 setAt2 start1 start2 finish1 finish2 : Z) (clock1 clock2 rest1 rest2 : list Z) :
  let s1 := fst (AntigravityScreen.jamJSThread s) in
  let s2 := fst (AntigravityScreen.jamJSThread s1) in
  let timers := snd (AntigravityScreen.jamJSThread s) ++ snd (AntigravityScreen.jamJSThread s1) in
  let timer := {| AntigravityScreen.callback := AntigravityScreen.jamBody;
                  AntigravityScreen.delay := 50 |} in
  AntigravityScreen.runTimeout setAt1 timer (start1 :: clock1) s2 = Some (s3, finish1, rest1) ->
  AntigravityScreen.runTimeout setAt2 timer (start2 :: clock2) s3 = Some (s4, finish2, rest2) ->
  (finish1 <= start2)%Z ->
  timers = [timer; timer] /\
  AntigravityScreen.isJammed s2 = true /\
  AntigravityScreen.isJammed s3 = false /\
  AntigravityScreen.isJammed s4 = false /\
  (3000 <= finish2 - start2)%Z /\
  (6000 <= finish2 - start1)%Z /\
  AntigravityScreen.bridgePos s4 = AntigravityScreen.bridgePos s /\
  AntigravityScreen.bridgeDirection s4 = AntigravityScreen.bridgeDirection s.
Proof.
  intros s1 s2 timers timer H1 H2 Horder.
  cbn [AntigravityScreen.runTimeout AntigravityScreen.delay AntigravityScreen.callback
       AntigravityScreen.runCallback AntigravityScreen.jamCallback timer] in H1, H2.
  destruct (start1 <? setAt1 + 50)%Z; [discriminate|].
  destruct (start2 <? setAt2 + 50)%Z; [discriminate|].
  destruct (AntigravityScreen.busyWait start1 clock1) as [[f1 r1]|] eqn:W1; [|discriminate].
  destruct (AntigravityScreen.busyWait start2 clock2) as [[f2 r2]|] eqn:W2; [|discriminate].
  injection H1 as <- <- <-. injection H2 as <- <- <-.
  destruct (busyWait_returns _ _ _ _ W1) as [Hf1 _].
  destruct (busyWait_returns _ _ _ _ W2) as [Hf2 _].
  repeat split; try reflexivity; lia.
Qed.

Lemma second_press_blocks_unflagged_witness :
  let timer := {| AntigravityScreen.callback := AntigravityScreen.jamBody;
                  AntigravityScreen.delay := 50 |} in
  let s2 := fst (AntigravityScreen.jamJSThread
                   (fst (AntigravityScreen.jamJSThread AntigravityScreen.mount))) in
  let s3 := AntigravityScreen.setIsJammed false s2 in
  AntigravityScreen.runTimeout 0 timer (50 :: [1000; 3050; 3051])%Z s2
    = Some (s3, 3050%Z, [3051%Z]) /\
  AntigravityScreen.runTimeout 20 timer (3051 :: [5000; 6051])%Z s3
    = Some (s3, 6051%Z, []) /\
  (3050 <= 3051)%Z /\
  (6000 <= 6051 - 50)%Z.
Proof.
  intros timer s2 s3.
  assert (H1 : AntigravityScreen.runTimeout 0 timer (50 :: [1000; 3050; 3051])%Z s2
               = Some (s3, 3050%Z, [3051%Z])) by reflexivity.
  assert (H2 : AntigravityScreen.runTimeout 20 timer (3051 :: [5000; 6051])%Z s3
               = Some (s3, 6051%Z, [])) by reflexivity.
  assert (H3 : (3050 <= 3051)%Z) by lia.
  split; [exact H1|]. split; [exact H2|]. split; [exact H3|].
  exact (proj1 (proj2 (proj2 (proj2 (proj2 (proj2
    (second_press_blocks_unflagged AntigravityScreen.mount s3 s3 0 20 50 3051 3050 6051
       [1000; 3050; 3051]%Z [5000; 6051]%Z [3051%Z] [] H1 H2 H3))))))).
Defined.
